(** * otlp-wire: a shallow embedding of [otlpwire.go] and its wire primitives

    The Go package walks OTLP protobuf bytes with the [protowire] decoder.
    Bytes are [Byte.byte]; Go [int] and [uint64] values are [Z] (or [nat]
    for cursor positions and counts).  A Go [error] is [option string]
    ([None] is [nil]); a Go slice of slices is [option (list _)], where
    [None] is the nil slice.  Every loop [for pos < len(data) { ... }] of the
    source is one instance of the generic cursor machine [run] below. *)

From Stdlib Require Import ZArith String List Lia Bool.
Import ListNotations.
Open Scope Z_scope.

(** ** Bytes *)

Definition bval (b : Byte.byte) : Z := Z.of_nat (Byte.to_nat b).

(** Go's [byte(v)]: truncation to the low 8 bits. *)
Definition byte_of (z : Z) : Byte.byte :=
  match Byte.of_nat (Z.to_nat (z mod 256)) with
  | Some b => b
  | None => Byte.x00
  end.

Definition bytes_of (l : list Z) : list Byte.byte := map byte_of l.

(** ** protowire (google.golang.org/protobuf/encoding/protowire)

    The primitive codec the package imports; embedded from its Go source. *)

Definition VarintType : Z := 0.
Definition Fixed64Type : Z := 1.
Definition BytesType : Z := 2.
Definition StartGroupType : Z := 3.
Definition EndGroupType : Z := 4.
Definition Fixed32Type : Z := 5.

Definition errCodeTruncated : Z := -1.
Definition errCodeFieldNumber : Z := -2.
Definition errCodeOverflow : Z := -3.

Definition MinValidNumber : Z := 1.
Definition MaxValidNumber : Z := 2 ^ 29 - 1.
Definition MaxInt32 : Z := 2 ^ 31 - 1.

(** [ConsumeVarint], unrolled in Go over the bytes [b[0]] .. [b[9]]: at byte
    [i < 9] it adds [y << 7i] and returns if [y < 0x80], otherwise removes
    the continuation bit [0x80 << 7i]; the tenth byte adds [y << 63]
    (modulo 2^64) and must be [< 2].  Before the tenth byte the running value
    stays below 2^64, so no wrap-around happens there. *)
Fixpoint consume_varint_at (i : nat) (v : Z) (b : list Byte.byte) : Z * Z :=
  match b with
  | [] => (0, errCodeTruncated)
  | y :: b' =>
      let y := bval y in
      if Nat.eqb i 9 then
        let v := (v + Z.shiftl y 63) mod 2 ^ 64 in
        if y <? 2 then (v, 10) else (0, errCodeOverflow)
      else
        let v := v + Z.shiftl y (7 * Z.of_nat i) in
        if y <? 128 then (v, Z.of_nat i + 1)
        else consume_varint_at (S i) (v - Z.shiftl 128 (7 * Z.of_nat i)) b'
  end.

Definition ConsumeVarint (b : list Byte.byte) : Z * Z := consume_varint_at 0 0 b.

(** [DecodeTag]: the field number is [x >> 3] unless it exceeds MaxInt32. *)
Definition DecodeTag (x : Z) : Z * Z :=
  if Z.shiftr x 3 >? MaxInt32 then (-1, 0) else (Z.shiftr x 3, Z.land x 7).

(** [ConsumeTag] returns (number, type, n); [n < 0] is an error. *)
Definition ConsumeTag (b : list Byte.byte) : Z * Z * Z :=
  let '(v, n) := ConsumeVarint b in
  if n <? 0 then (0, 0, n)
  else
    let '(num, typ) := DecodeTag v in
    if num <? MinValidNumber then (0, 0, errCodeFieldNumber) else (num, typ, n).

(** [ConsumeBytes]: a varint length [m], then [b[n:][:m]]. *)
Definition ConsumeBytes (b : list Byte.byte) : list Byte.byte * Z :=
  let '(m, n) := ConsumeVarint b in
  if n <? 0 then ([], n)
  else
    let rest := skipn (Z.to_nat n) b in
    if m >? Z.of_nat (length rest) then ([], errCodeTruncated)
    else (firstn (Z.to_nat m) rest, n + m).

(** Little-endian value of a byte list. *)
Fixpoint le_value (b : list Byte.byte) : Z :=
  match b with
  | [] => 0
  | y :: b' => bval y + 256 * le_value b'
  end.

Definition ConsumeFixed32 (b : list Byte.byte) : Z * Z :=
  if (length b <? 4)%nat then (0, errCodeTruncated) else (le_value (firstn 4 b), 4).

Definition ConsumeFixed64 (b : list Byte.byte) : Z * Z :=
  if (length b <? 8)%nat then (0, errCodeTruncated) else (le_value (firstn 8 b), 8).

(** [AppendVarint]: Go's ten-way switch emits seven bits per byte with the
    continuation bit set, and a last byte [byte(v >> 63)] in the ten-byte case. *)
Fixpoint varint_bytes (k : nat) (v : Z) : list Byte.byte :=
  match k with
  | O => [byte_of v]
  | S k' =>
      if v <? 128 then [byte_of v]
      else byte_of (Z.lor (Z.land v 127) 128) :: varint_bytes k' (Z.shiftr v 7)
  end.

Definition AppendVarint (b : list Byte.byte) (v : Z) : list Byte.byte :=
  b ++ varint_bytes 9 v.

Definition EncodeTag (num typ : Z) : Z := Z.lor (Z.shiftl num 3) (Z.land typ 7).

Definition AppendTag (b : list Byte.byte) (num typ : Z) : list Byte.byte :=
  AppendVarint b (EncodeTag num typ).

Definition AppendBytes (b v : list Byte.byte) : list Byte.byte :=
  AppendVarint b (Z.of_nat (length v)) ++ v.

(** ** skipField *)

Definition skipField (data : list Byte.byte) (wireType : Z) : Z :=
  if wireType =? VarintType then snd (ConsumeVarint data)
  else if wireType =? Fixed64Type then snd (ConsumeFixed64 data)
  else if wireType =? BytesType then snd (ConsumeBytes data)
  else if wireType =? Fixed32Type then snd (ConsumeFixed32 data)
  else -1.

(** ** The cursor machine shared by every loop

    The state is the loop's [pos] and its accumulator (the running [count],
    or the slice being appended to).  A step either continues the loop or
    executes a [return] at the given cursor position with a value. *)

Record cursor (A : Type) := Cursor { pos : nat; acc : A }.
Arguments Cursor {A} pos acc.
Arguments pos {A} c.
Arguments acc {A} c.

Inductive step_result (A R : Type) :=
| Continue (c : cursor A)
| Stop (p : nat) (r : R).
Arguments Continue {A R} c.
Arguments Stop {A R} p r.

Inductive outcome (A R : Type) :=
| Finished (c : cursor A)
| Stopped (p : nat) (r : R)
| OutOfFuel.
Arguments Finished {A R} c.
Arguments Stopped {A R} p r.
Arguments OutOfFuel {A R}.

Section Machine.
Context {A R : Type}.
Variable step : list Byte.byte -> cursor A -> step_result A R.

(** [for pos < len(data) { body }]; [fuel] bounds the iterations, and
    [len(data) + 1] iterations always suffice (see [run_total]). *)
Fixpoint run (fuel : nat) (data : list Byte.byte) (c : cursor A) : outcome A R :=
  if (pos c <? length data)%nat then
    match fuel with
    | O => OutOfFuel
    | S f =>
        match step data c with
        | Continue c' => run f data c'
        | Stop p r => Stopped p r
        end
    end
  else Finished c.

(** A loop function: run from [pos = 0], then the code after the loop. *)
Definition loop (init : A) (finish : A -> R) (dflt : R) (data : list Byte.byte) : R :=
  match run (S (length data)) data (Cursor 0 init) with
  | Finished c => finish (acc c)
  | Stopped _ r => r
  | OutOfFuel => dflt
  end.

End Machine.

(** The body shared by all loops of [otlpwire.go]:
<<
    fieldNum, wireType, tagLen := protowire.ConsumeTag(data[pos:])
    if tagLen < 0 { return <fail errTag> }
    pos += tagLen
    if <is_match fieldNum> && wireType == protowire.BytesType {
        msgBytes, n := protowire.ConsumeBytes(data[pos:])
        if n < 0 { return <fail errBytes> }
        <on_match pos n msgBytes>
    } else {
        n := skipField(data[pos:], wireType)
        if n < 0 { return <fail errSkip> }
        pos += n
    }
>> *)
Definition walk_step {A R : Type} (errTag errBytes errSkip : string)
    (is_match : Z -> bool) (fail : string -> R)
    (on_match : nat -> Z -> list Byte.byte -> A -> step_result A R)
    (data : list Byte.byte) (c : cursor A) : step_result A R :=
  let '(fieldNum, wireType, tagLen) := ConsumeTag (skipn (pos c) data) in
  if tagLen <? 0 then Stop (pos c) (fail errTag)
  else
    let p := (pos c + Z.to_nat tagLen)%nat in
    if is_match fieldNum && (wireType =? BytesType) then
      let '(msgBytes, n) := ConsumeBytes (skipn p data) in
      if n <? 0 then Stop p (fail errBytes)
      else on_match p n msgBytes (acc c)
    else
      let n := skipField (skipn p data) wireType in
      if n <? 0 then Stop p (fail errSkip)
      else Continue (Cursor (p + Z.to_nat n)%nat (acc c)).

(** ** Counting loops: [(int, error)] *)

Definition count_result := (nat * option string)%type.

Definition count_fail (e : string) : count_result := (0%nat, Some e).

(** On a match: [pos += n; c, err := k(msgBytes); if err != nil { return 0, err };
    count += c]. *)
Definition count_on_match (k : list Byte.byte -> count_result)
    (p : nat) (n : Z) (msgBytes : list Byte.byte) (count : nat)
    : step_result nat count_result :=
  let p := (p + Z.to_nat n)%nat in
  match k msgBytes with
  | (c, Some e) => Stop p (0%nat, Some e)
  | (c, None) => Continue (Cursor p (count + c)%nat)
  end.

Definition count_step (errTag errBytes : string) (is_match : Z -> bool)
    (k : list Byte.byte -> count_result) :=
  walk_step errTag errBytes "failed to skip field" is_match count_fail (count_on_match k).

Definition count_via (errTag errBytes : string) (is_match : Z -> bool)
    (k : list Byte.byte -> count_result) (data : list Byte.byte) : count_result :=
  loop (count_step errTag errBytes is_match k) 0%nat (fun count => (count, None))
    (0%nat, None) data.

(** [count++] for each occurrence (the leaf level). *)
Definition count_one (_ : list Byte.byte) : count_result := (1%nat, None).

Definition is_field (k : Z) (fieldNum : Z) : bool := fieldNum =? k.

(** Metric types: field 5=Gauge, 7=Sum, 9=Histogram, 10=ExponentialHistogram,
    11=Summary. *)
Definition is_metric_data (fieldNum : Z) : bool :=
  (fieldNum =? 5) || (fieldNum =? 7) || (fieldNum =? 9) || (fieldNum =? 10) || (fieldNum =? 11).

Definition countDataPoints : list Byte.byte -> count_result :=
  count_via "malformed protobuf tag in metric data points" "invalid bytes in DataPoints"
    (is_field 1) count_one.

Definition countInMetric : list Byte.byte -> count_result :=
  count_via "malformed protobuf tag in Metric" "invalid bytes in metric data"
    is_metric_data countDataPoints.

Definition countInScopeMetrics : list Byte.byte -> count_result :=
  count_via "malformed protobuf tag in ScopeMetrics" "invalid bytes in Metrics"
    (is_field 2) countInMetric.

Definition countInResourceMetrics : list Byte.byte -> count_result :=
  count_via "malformed protobuf tag in ResourceMetrics" "invalid bytes in ScopeMetrics"
    (is_field 2) countInScopeMetrics.

Definition countMetricDataPoints : list Byte.byte -> count_result :=
  count_via "malformed protobuf tag in ExportMetricsServiceRequest" "invalid bytes in ResourceMetrics"
    (is_field 1) countInResourceMetrics.

Definition countInScopeLogs : list Byte.byte -> count_result :=
  count_via "malformed protobuf tag in ScopeLogs" "invalid bytes in LogRecords"
    (is_field 2) count_one.

Definition countInResourceLogs : list Byte.byte -> count_result :=
  count_via "malformed protobuf tag in ResourceLogs" "invalid bytes in ScopeLogs"
    (is_field 2) countInScopeLogs.

Definition countLogRecords : list Byte.byte -> count_result :=
  count_via "malformed protobuf tag in ExportLogsServiceRequest" "invalid bytes in ResourceLogs"
    (is_field 1) countInResourceLogs.

Definition countInScopeSpans : list Byte.byte -> count_result :=
  count_via "malformed protobuf tag in ScopeSpans" "invalid bytes in Spans"
    (is_field 2) count_one.

Definition countInResourceSpans : list Byte.byte -> count_result :=
  count_via "malformed protobuf tag in ResourceSpans" "invalid bytes in ScopeSpans"
    (is_field 2) countInScopeSpans.

Definition countSpans : list Byte.byte -> count_result :=
  count_via "malformed protobuf tag in ExportTracesServiceRequest" "invalid bytes in ResourceSpans"
    (is_field 1) countInResourceSpans.

(** ** Extraction loops: [([][]byte, error)] *)

(** A Go slice: [None] is the nil slice. *)
Definition slice (T : Type) := option (list T).

Definition slice_elems {T} (s : slice T) : list T :=
  match s with None => [] | Some l => l end.

(** [append(s, x)]: never nil afterwards. *)
Definition go_append {T} (s : slice T) (x : T) : slice T := Some (slice_elems s ++ [x]).

Definition extract_result := (slice (list Byte.byte) * option string)%type.

Definition extract_fail (e : string) : extract_result := (None, Some e).

(** On a match: [out = append(out, msgBytes); pos += n]. *)
Definition extract_on_match (p : nat) (n : Z) (msgBytes : list Byte.byte)
    (out : slice (list Byte.byte)) : step_result (slice (list Byte.byte)) extract_result :=
  Continue (Cursor (p + Z.to_nat n)%nat (go_append out msgBytes)).

Definition extract_step (errTag errBytes : string) :=
  walk_step errTag errBytes "failed to skip field" (is_field 1) extract_fail extract_on_match.

Definition extract_via (errTag errBytes : string) (data : list Byte.byte) : extract_result :=
  loop (extract_step errTag errBytes) None (fun out => (out, None)) (None, None) data.

Definition extractResourceMetrics : list Byte.byte -> extract_result :=
  extract_via "malformed protobuf tag in ExportMetricsServiceRequest" "invalid bytes in ResourceMetrics".

Definition extractResourceLogs : list Byte.byte -> extract_result :=
  extract_via "malformed protobuf tag in ExportLogsServiceRequest" "invalid bytes in ResourceLogs".

Definition extractResourceSpans : list Byte.byte -> extract_result :=
  extract_via "malformed protobuf tag in ExportTracesServiceRequest" "invalid bytes in ResourceSpans".

(** ** extractResourceMessage: [([]byte, error)]

    On the first length-delimited field 1 it returns its bytes at once; when
    the loop ends it returns [[]byte{}, nil].  (Byte slices are lists here:
    the empty and the nil byte slice are both [[]].) *)

Definition bytes_result := (list Byte.byte * option string)%type.

Definition bytes_fail (e : string) : bytes_result := ([], Some e).

Definition resource_on_match (p : nat) (n : Z) (msgBytes : list Byte.byte) (_ : unit)
    : step_result unit bytes_result :=
  Stop p (msgBytes, None).

Definition resource_step (messageType : string) :=
  walk_step (String.append "malformed protobuf tag in " messageType) "invalid bytes in Resource"
    (String.append "failed to skip field in " messageType) (is_field 1) bytes_fail resource_on_match.

Definition extractResourceMessage (data : list Byte.byte) (messageType : string) : bytes_result :=
  loop (resource_step messageType) tt (fun _ => ([], None)) ([], None) data.

Definition extractResourceFromResourceMetrics (data : list Byte.byte) : bytes_result :=
  extractResourceMessage data "ResourceMetrics".

Definition extractResourceFromResourceLogs (data : list Byte.byte) : bytes_result :=
  extractResourceMessage data "ResourceLogs".

Definition extractResourceFromResourceSpans (data : list Byte.byte) : bytes_result :=
  extractResourceMessage data "ResourceSpans".

(** ** Wrapping *)

(** [AppendTag(buf, 1, BytesType)] then [AppendBytes(buf, r)]; the size
    computation only sets the buffer's capacity. *)
Definition wrapResourceMetrics (resourceMetricsBytes : list Byte.byte) : list Byte.byte :=
  AppendBytes (AppendTag [] 1 BytesType) resourceMetricsBytes.

Definition wrapResourceLogs (resourceLogsBytes : list Byte.byte) : list Byte.byte :=
  AppendBytes (AppendTag [] 1 BytesType) resourceLogsBytes.

Definition wrapResourceSpans (resourceSpansBytes : list Byte.byte) : list Byte.byte :=
  AppendBytes (AppendTag [] 1 BytesType) resourceSpansBytes.

(** ** Sizes (protowire)

    [bits.Len64(x)] is the number of bits of [x], 0 for 0; [SizeVarint] is
    [int(9*uint32(bits.Len64(v))+64) / 64] (the product stays far below
    2^32); [SizeTag(num)] is [SizeVarint(EncodeTag(num, 0))]; [SizeBytes(n)]
    is [SizeVarint(uint64(n)) + n]. *)

Definition Len64 (x : Z) : Z := if x =? 0 then 0 else Z.log2 x + 1.

Definition SizeVarint (v : Z) : Z := (9 * Len64 v + 64) / 64.

Definition SizeTag (num : Z) : Z := SizeVarint (EncodeTag num 0).

Definition SizeBytes (n : Z) : Z := SizeVarint n + n.

(** The [totalSize] computed first by [wrapResourceMetrics],
    [wrapResourceLogs] and [wrapResourceSpans]: [tagSize + lengthSize], the
    capacity of the buffer they allocate. *)
Definition wrap_total_size (resourceBytes : list Byte.byte) : Z :=
  let tagSize := SizeTag 1 in
  let lengthSize := SizeBytes (Z.of_nat (length resourceBytes)) in
  tagSize + lengthSize.

(** ** Public methods *)

Definition ExportMetricsServiceRequest_DataPointCount (m : list Byte.byte) : nat :=
  fst (countMetricDataPoints m).

Definition ExportLogsServiceRequest_LogRecordCount (l : list Byte.byte) : nat :=
  fst (countLogRecords l).

Definition ExportTracesServiceRequest_SpanCount (t : list Byte.byte) : nat :=
  fst (countSpans t).

(** [if err != nil { return nil }; result := make([]T, len(rb)); ...]: the
    result of [make] is a non-nil slice, also of length 0. *)
Definition split_by_resource (r : extract_result) : slice (list Byte.byte) :=
  match r with
  | (_, Some _) => None
  | (resourceBytes, None) => Some (map (fun rb => rb) (slice_elems resourceBytes))
  end.

Definition ExportMetricsServiceRequest_SplitByResource (m : list Byte.byte) :=
  split_by_resource (extractResourceMetrics m).

Definition ExportLogsServiceRequest_SplitByResource (l : list Byte.byte) :=
  split_by_resource (extractResourceLogs l).

Definition ExportTracesServiceRequest_SplitByResource (t : list Byte.byte) :=
  split_by_resource (extractResourceSpans t).

Definition ResourceMetrics_Resource (r : list Byte.byte) : list Byte.byte :=
  fst (extractResourceFromResourceMetrics r).

Definition ResourceLogs_Resource (r : list Byte.byte) : list Byte.byte :=
  fst (extractResourceFromResourceLogs r).

Definition ResourceSpans_Resource (r : list Byte.byte) : list Byte.byte :=
  fst (extractResourceFromResourceSpans r).

Definition ResourceMetrics_AsExportRequest (r : list Byte.byte) := wrapResourceMetrics r.
Definition ResourceLogs_AsExportRequest (r : list Byte.byte) := wrapResourceLogs r.
Definition ResourceSpans_AsExportRequest (r : list Byte.byte) := wrapResourceSpans r.

(** ** Well-formed buffers: a reference encoder

    A protobuf message as its producer sees it: a sequence of fields, each a
    field number and a payload.  [enc_msg] is the producer's encoding with
    protowire's [AppendTag]/[AppendVarint]/[AppendBytes]; a well-formed
    buffer is [enc_msg m] for a tree [m] with valid field numbers, varints
    below 2^64, fixed fields of 4 or 8 bytes and lengths that fit a Go
    [int].  [PMsg] is a length-delimited field whose bytes are themselves an
    encoded message, [PBytes] one with arbitrary bytes (a string, an id). *)

Inductive msg :=
| MNil
| MCons (num : Z) (p : payload) (rest : msg)
with payload :=
| PVarint (v : Z)
| PFixed64 (b : list Byte.byte)
| PFixed32 (b : list Byte.byte)
| PBytes (b : list Byte.byte)
| PMsg (m : msg).

Fixpoint enc_msg (m : msg) : list Byte.byte :=
  match m with
  | MNil => []
  | MCons n p r => enc_field n p ++ enc_msg r
  end
with enc_field (n : Z) (p : payload) : list Byte.byte :=
  match p with
  | PVarint v => AppendVarint (AppendTag [] n VarintType) v
  | PFixed64 b => AppendTag [] n Fixed64Type ++ b
  | PFixed32 b => AppendTag [] n Fixed32Type ++ b
  | PBytes b => AppendBytes (AppendTag [] n BytesType) b
  | PMsg m => AppendBytes (AppendTag [] n BytesType) (enc_msg m)
  end.

Definition wire_type (p : payload) : Z :=
  match p with
  | PVarint _ => VarintType
  | PFixed64 _ => Fixed64Type
  | PFixed32 _ => Fixed32Type
  | PBytes _ | PMsg _ => BytesType
  end.

(** The bytes of a length-delimited payload. *)
Definition ld_bytes (p : payload) : list Byte.byte :=
  match p with
  | PBytes b => b
  | PMsg m => enc_msg m
  | _ => []
  end.

Definition is_ld (p : payload) : bool := wire_type p =? BytesType.

Definition valid_num (n : Z) : bool := (MinValidNumber <=? n) && (n <=? MaxValidNumber).

Definition fits_int (l : list Byte.byte) : bool := Z.of_nat (length l) <? 2 ^ 63.

Fixpoint wf_msg (m : msg) : bool :=
  match m with
  | MNil => true
  | MCons n p r => valid_num n && wf_payload p && wf_msg r
  end
with wf_payload (p : payload) : bool :=
  match p with
  | PVarint v => (0 <=? v) && (v <? 2 ^ 64)
  | PFixed64 b => Nat.eqb (length b) 8
  | PFixed32 b => Nat.eqb (length b) 4
  | PBytes b => fits_int b
  | PMsg m => wf_msg m && fits_int (enc_msg m)
  end.

Fixpoint mall (P : Z -> payload -> bool) (m : msg) : bool :=
  match m with
  | MNil => true
  | MCons n p r => P n p && mall P r
  end.

Fixpoint msum (f : Z -> payload -> nat) (m : msg) : nat :=
  match m with
  | MNil => 0%nat
  | MCons n p r => (f n p + msum f r)%nat
  end.

(** The length-delimited payloads with a matching number, in order. *)
Fixpoint matched (is_match : Z -> bool) (m : msg) : list (list Byte.byte) :=
  match m with
  | MNil => []
  | MCons n p r =>
      if is_match n && is_ld p then ld_bytes p :: matched is_match r else matched is_match r
  end.

(** The schema: at each level the number of the next level's field, and
    the shape that field's bytes must have (an encoded message). *)
Definition sub_ok (is_match : Z -> bool) (ok : msg -> bool) (n : Z) (p : payload) : bool :=
  if is_match n then
    match p with
    | PMsg v => ok v
    | PBytes _ => false
    | _ => true
    end
  else true.

Definition wf_level (is_match : Z -> bool) (ok : msg -> bool) (m : msg) : bool :=
  wf_msg m && mall (sub_ok is_match ok) m.

Definition wf_metric : msg -> bool := wf_level is_metric_data wf_msg.
Definition wf_scope_metrics : msg -> bool := wf_level (is_field 2) wf_metric.
Definition wf_resource_metrics : msg -> bool := wf_level (is_field 2) wf_scope_metrics.
Definition wf_metrics_request : msg -> bool := wf_level (is_field 1) wf_resource_metrics.

Definition wf_scope_leaves : msg -> bool := wf_msg.
Definition wf_resource_leaves : msg -> bool := wf_level (is_field 2) wf_scope_leaves.
Definition wf_request_leaves : msg -> bool := wf_level (is_field 1) wf_resource_leaves.

(** ** The spec's counts, on the tree

    The number of length-delimited fields 1 in a metric-variant container;
    at each level above, the sum over the sub-messages reached through the
    schema's field numbers. *)

Definition spec_leaves (k : Z) (v : msg) : nat :=
  msum (fun n p => if (n =? k) && is_ld p then 1%nat else 0%nat) v.

Definition spec_level (is_match : Z -> bool) (sub : msg -> nat) (m : msg) : nat :=
  msum (fun n p => if is_match n then match p with PMsg v => sub v | _ => 0%nat end else 0%nat) m.

Definition spec_metric_points : msg -> nat := spec_level is_metric_data (spec_leaves 1).
Definition spec_scope_metrics_points : msg -> nat := spec_level (is_field 2) spec_metric_points.
Definition spec_resource_metrics_points : msg -> nat :=
  spec_level (is_field 2) spec_scope_metrics_points.
Definition spec_request_points : msg -> nat := spec_level (is_field 1) spec_resource_metrics_points.

(** ** Machine semantics without fuel *)

Section Exec.
Context {A R : Type}.
Variable step : list Byte.byte -> cursor A -> step_result A R.

Inductive exec (data : list Byte.byte) : cursor A -> outcome A R -> Prop :=
| exec_finish c : (length data <= pos c)%nat -> exec data c (Finished c)
| exec_stop c p r :
    (pos c < length data)%nat -> step data c = Stop p r -> exec data c (Stopped p r)
| exec_cont c c' o :
    (pos c < length data)%nat -> step data c = Continue c' -> exec data c' o -> exec data c o.

(** Steps that continue, from [c] to [c']. *)
Inductive steps (data : list Byte.byte) : cursor A -> cursor A -> Prop :=
| steps_refl c : steps data c c
| steps_cons c c' c'' :
    (pos c < length data)%nat -> step data c = Continue c' -> steps data c' c'' ->
    steps data c c''.

Definition progress : Prop :=
  forall data c c', step data c = Continue c' -> (pos c < pos c')%nat.

Definition in_bounds : Prop :=
  forall data c c', step data c = Continue c' -> (pos c' <= length data)%nat.

End Exec.

(** The bytes after the tag. *)
Definition field_body (p : payload) : list Byte.byte :=
  match p with
  | PVarint v => AppendVarint [] v
  | PFixed64 b | PFixed32 b => b
  | PBytes b => AppendBytes [] b
  | PMsg m => AppendBytes [] (enc_msg m)
  end.

(** A primitive's result [n]: an error, or between 1 and the bytes available. *)
Definition consumed_ok (n : Z) (b : list Byte.byte) : Prop :=
  n < 0 \/ 1 <= n <= Z.of_nat (length b).

(** ** What one iteration of the shared loop body decides

    [walk_view] is the decoding done by [walk_step] before its three exits:
    a [return] with an error message, the matching branch (cursor after the
    tag, [n] and [msgBytes]) or the skipping branch (the next cursor). *)

Inductive view :=
| VFail (p : nat) (e : string)
| VMatch (p : nat) (n : Z) (msgBytes : list Byte.byte)
| VSkip (p : nat).

Definition walk_view (errTag errBytes errSkip : string) (is_match : Z -> bool)
    (data : list Byte.byte) (pos0 : nat) : view :=
  let '(fieldNum, wireType, tagLen) := ConsumeTag (skipn pos0 data) in
  if tagLen <? 0 then VFail pos0 errTag
  else
    let p := (pos0 + Z.to_nat tagLen)%nat in
    if is_match fieldNum && (wireType =? BytesType) then
      let '(msgBytes, n) := ConsumeBytes (skipn p data) in
      if n <? 0 then VFail p errBytes else VMatch p n msgBytes
    else
      let n := skipField (skipn p data) wireType in
      if n <? 0 then VFail p errSkip else VSkip (p + Z.to_nat n)%nat.

(** ** Sample batches

    A NumberDataPoint with [time_unix_nano] (field 3, fixed64) and [as_int]
    (field 6, sfixed64); a metric with [name] (field 1), a gauge (field 5)
    of [g] points and a sum (field 7) of [k] points with its temporality
    and monotonicity; a resource with a [service.name]-like attribute. *)

Definition sample_point (v : Z) : msg :=
  MCons 3 (PFixed64 (bytes_of [0; 0; 0; 0; 0; 0; 0; 1]))
    (MCons 6 (PFixed64 (bytes_of [v; 0; 0; 0; 0; 0; 0; 0])) MNil).

Fixpoint sample_points (k : nat) : msg :=
  match k with
  | O => MNil
  | S k' => MCons 1 (PMsg (sample_point (Z.of_nat k))) (sample_points k')
  end.

Fixpoint msg_app (m1 m2 : msg) : msg :=
  match m1 with
  | MNil => m2
  | MCons n p r => MCons n p (msg_app r m2)
  end.

Definition sample_metric (g k : nat) : msg :=
  MCons 1 (PBytes (bytes_of [99; 112; 117]))
    (MCons 5 (PMsg (sample_points g))
       (MCons 7 (PMsg (msg_app (sample_points k) (MCons 2 (PVarint 2) (MCons 3 (PVarint 1) MNil))))
          MNil)).

Definition sample_resource (svc : Z) (metrics : msg) : msg :=
  MCons 1 (PMsg (MCons 1 (PBytes (bytes_of [svc])) MNil))
    (MCons 2 (PMsg (MCons 1 (PMsg (MCons 1 (PBytes (bytes_of [108; 105; 98])) MNil)) metrics))
       MNil).

(** One resource, one metric: a gauge of 2 points and a sum of 1 point. *)
Definition batch_gauge2_sum1 : msg :=
  MCons 1 (PMsg (sample_resource 65 (MCons 2 (PMsg (sample_metric 2 1)) MNil))) MNil.

(** Two resources, with 5 and 15 points. *)
Definition resource_5 : msg := sample_resource 65 (MCons 2 (PMsg (sample_metric 5 0)) MNil).

Definition resource_15 : msg :=
  sample_resource 66 (MCons 2 (PMsg (sample_metric 10 0)) (MCons 2 (PMsg (sample_metric 0 5)) MNil)).

Definition batch_5_15 : msg := MCons 1 (PMsg resource_5) (MCons 1 (PMsg resource_15) MNil).

(** ** Counting logs and spans on the tree

    ScopeLogs and ScopeSpans hold their leaves (LogRecord, Span) in field 2;
    above them the request's field 1 and the resource's field 2. *)

Definition spec_resource_leaves : msg -> nat := spec_level (is_field 2) (spec_leaves 2).
Definition spec_request_leaves : msg -> nat := spec_level (is_field 1) spec_resource_leaves.

(** The one-field requests [{1: r}] of a list of resources, one after the other. *)
Fixpoint resources_msg (rs : list (list Byte.byte)) : msg :=
  match rs with
  | [] => MNil
  | r :: rs' => MCons 1 (PBytes r) (resources_msg rs')
  end.

(** [k] log records or spans of a scope, each with one fixed64 field. *)
Fixpoint sample_leaves (k : nat) : msg :=
  match k with
  | O => MNil
  | S k' => MCons 2 (PMsg (MCons 1 (PFixed64 (bytes_of [Z.of_nat k; 0; 0; 0; 0; 0; 0; 0])) MNil))
              (sample_leaves k')
  end.

(** One resource with two scopes, of 3 and 2 leaves. *)
Definition batch_leaves_3_2 : msg :=
  MCons 1 (PMsg (MCons 1 (PMsg (MCons 1 (PBytes (bytes_of [65])) MNil))
                  (MCons 2 (PMsg (MCons 1 (PMsg MNil) (sample_leaves 3)))
                     (MCons 2 (PMsg (sample_leaves 2)) MNil))))
    MNil.

(** A batch whose only gauge holds a truncated tag, four levels down. *)
Definition deep_bad_batch : msg :=
  MCons 1 (PMsg (MCons 2 (PMsg (MCons 2 (PMsg (MCons 5 (PBytes (bytes_of [128])) MNil)) MNil)) MNil))
    MNil.

(** * Proofs *)

Ltac zb := repeat match goal with
  | H : Z.ltb _ _ = true |- _ => apply Z.ltb_lt in H
  | H : Z.ltb _ _ = false |- _ => apply Z.ltb_ge in H
  | H : Z.gtb _ _ = _ |- _ => rewrite Z.gtb_ltb in H
  | H : Z.leb _ _ = true |- _ => apply Z.leb_le in H
  | H : Z.leb _ _ = false |- _ => apply Z.leb_gt in H
  | H : Z.eqb _ _ = true |- _ => apply Z.eqb_eq in H
  | H : Z.eqb _ _ = false |- _ => apply Z.eqb_neq in H
  | H : Nat.ltb _ _ = true |- _ => apply Nat.ltb_lt in H
  | H : Nat.ltb _ _ = false |- _ => apply Nat.ltb_ge in H
  | H : Nat.eqb _ _ = true |- _ => apply Nat.eqb_eq in H
  | H : Nat.eqb _ _ = false |- _ => apply Nat.eqb_neq in H
  | H : (_ && _)%bool = true |- _ => apply andb_true_iff in H as [? ?]
  end.

(** ** Bytes and bits *)

Lemma bval_bound (b : Byte.byte) : 0 <= bval b < 256.
Proof. unfold bval. pose proof (Byte.to_nat_bounded b). lia. Qed.

Lemma bval_byte_of (z : Z) : bval (byte_of z) = z mod 256.
Proof.
  unfold byte_of, bval.
  pose proof (Z.mod_pos_bound z 256 ltac:(lia)) as Hb.
  pose proof (Byte.to_of_nat_option_map (Z.to_nat (z mod 256))) as H.
  destruct (Byte.of_nat (Z.to_nat (z mod 256))) as [b|] eqn:E.
  - simpl in H. destruct (Nat.leb _ 255) eqn:L; inversion H as [H1].
    rewrite H1. lia.
  - simpl in H. destruct (Nat.leb _ 255) eqn:L; [discriminate|].
    apply Nat.leb_gt in L. lia.
Qed.

Lemma bval_byte_of_small (z : Z) : 0 <= z < 256 -> bval (byte_of z) = z.
Proof. intros. rewrite bval_byte_of. apply Z.mod_small. lia. Qed.

Lemma lor_shiftl_small (a t : Z) (k : Z) :
  0 <= a -> 0 <= k -> 0 <= t < 2 ^ k -> Z.lor (Z.shiftl a k) t = a * 2 ^ k + t.
Proof.
  intros Ha Hk Ht.
  assert (Hland : Z.land (Z.shiftl a k) t = 0).
  { apply Z.bits_inj'. intros i Hi. rewrite Z.land_spec, Z.bits_0.
    destruct (Z.lt_ge_cases i k) as [Hlt|Hge].
    - rewrite Z.shiftl_spec_low by lia. reflexivity.
    - destruct (Z.eq_dec t 0) as [->|Hnz]; [rewrite Z.bits_0; apply andb_false_r|].
      rewrite (Z.bits_above_log2 t i); [apply andb_false_r|lia|].
      apply Z.log2_lt_pow2; [lia|].
      assert (2 ^ k <= 2 ^ i) by (apply Z.pow_le_mono_r; lia). lia. }
  rewrite <- Z.lxor_lor by exact Hland.
  rewrite <- Z.add_nocarry_lxor by exact Hland.
  rewrite Z.shiftl_mul_pow2 by lia. reflexivity.
Qed.

Lemma continuation_byte (v : Z) :
  0 <= v -> Z.lor (Z.land v 127) 128 = v mod 128 + 128.
Proof.
  intros Hv.
  assert (Hl : Z.land v 127 = v mod 128).
  { change 127 with (Z.ones 7). rewrite Z.land_ones by lia. reflexivity. }
  rewrite Hl, Z.lor_comm.
  change 128 with (Z.shiftl 1 7) at 1.
  rewrite lor_shiftl_small by (pose proof (Z.mod_pos_bound v 128); simpl; lia).
  change (2 ^ 7) with 128. lia.
Qed.

Lemma EncodeTag_value (n t : Z) :
  0 <= n -> 0 <= t < 8 -> EncodeTag n t = n * 8 + t.
Proof.
  intros Hn Ht. unfold EncodeTag.
  assert (Hl : Z.land t 7 = t).
  { change 7 with (Z.ones 3). rewrite Z.land_ones by lia. apply Z.mod_small. simpl. lia. }
  rewrite Hl. rewrite lor_shiftl_small by (simpl; lia). reflexivity.
Qed.

Lemma DecodeTag_value (n t : Z) :
  0 <= n <= MaxInt32 -> 0 <= t < 8 -> DecodeTag (n * 8 + t) = (n, t).
Proof.
  intros Hn Ht. unfold DecodeTag.
  assert (Hs : Z.shiftr (n * 8 + t) 3 = n).
  { rewrite Z.shiftr_div_pow2 by lia. change (2 ^ 3) with 8.
    rewrite Z.div_add_l by lia. rewrite Z.div_small by lia. lia. }
  assert (Hl : Z.land (n * 8 + t) 7 = t).
  { change 7 with (Z.ones 3). rewrite Z.land_ones by lia. change (2 ^ 3) with 8.
    rewrite Z.add_comm, Z.mod_add by lia. apply Z.mod_small. lia. }
  rewrite Hs, Hl. destruct (n >? MaxInt32) eqn:E; [lia|reflexivity].
Qed.

(** ** Varint round trip *)

Lemma varint_bytes_length (k : nat) (v : Z) : (1 <= length (varint_bytes k v) <= S k)%nat.
Proof.
  revert v. induction k as [|k IH]; intros v; simpl; [lia|].
  destruct (v <? 128); simpl; [lia|]. specialize (IH (Z.shiftr v 7)). lia.
Qed.

Lemma consume_varint_at_bytes (k i : nat) (a v : Z) (rest : list Byte.byte) :
  (i + k = 9)%nat -> 0 <= a < 2 ^ (7 * Z.of_nat i) -> 0 <= v < 2 ^ (7 * Z.of_nat k + 1) ->
  consume_varint_at i a (varint_bytes k v ++ rest) =
  (a + v * 2 ^ (7 * Z.of_nat i), Z.of_nat (i + length (varint_bytes k v))).
Proof.
  revert i a v. induction k as [|k IH]; intros i a v Hik Ha Hv.
  - replace i with 9%nat in * by lia.
    change (7 * Z.of_nat 0 + 1) with 1 in Hv.
    change (7 * Z.of_nat 9) with 63 in *.
    cbn [varint_bytes app consume_varint_at Nat.eqb length].
    rewrite bval_byte_of_small by lia.
    rewrite Z.shiftl_mul_pow2 by lia.
    destruct (v <? 2) eqn:E; [|lia].
    change (2 ^ 1) with 2 in Hv.
    rewrite Z.mod_small by lia. reflexivity.
  - assert (Hi9 : Nat.eqb i 9 = false) by (apply Nat.eqb_neq; lia).
    assert (Hpos : 0 <= 7 * Z.of_nat i) by lia.
    cbn [varint_bytes]. destruct (v <? 128) eqn:Hv128.
    + apply Z.ltb_lt in Hv128.
      cbn [app consume_varint_at length]. rewrite Hi9.
      rewrite bval_byte_of_small by lia.
      destruct (v <? 128) eqn:E; [|lia].
      rewrite Z.shiftl_mul_pow2 by lia. f_equal; lia.
    + apply Z.ltb_ge in Hv128.
      cbn [app consume_varint_at length]. rewrite Hi9.
      rewrite continuation_byte by lia.
      pose proof (Z.mod_pos_bound v 128 ltac:(lia)) as Hm.
      rewrite bval_byte_of_small by lia.
      destruct (v mod 128 + 128 <? 128) eqn:E; [zb; lia|].
      rewrite !Z.shiftl_mul_pow2 by lia.
      assert (H2 : 2 ^ (7 * Z.of_nat (S i)) = 2 ^ (7 * Z.of_nat i) * 128).
      { rewrite Nat2Z.inj_succ, <- Z.add_1_r, Z.mul_add_distr_l, Z.pow_add_r by lia.
        reflexivity. }
      assert (Hq : 0 <= Z.shiftr v 7 < 2 ^ (7 * Z.of_nat k + 1)).
      { rewrite Z.shiftr_div_pow2 by lia. change (2 ^ 7) with 128.
        split; [apply Z.div_pos; lia|].
        apply Z.div_lt_upper_bound; [lia|].
        replace (7 * Z.of_nat (S k) + 1) with (7 * Z.of_nat k + 1 + 7) in Hv by lia.
        rewrite Z.pow_add_r in Hv by lia. change (2 ^ 7) with 128 in Hv. lia. }
      rewrite IH; [|lia| rewrite H2; nia | exact Hq].
      rewrite H2, Z.shiftr_div_pow2 by lia. change (2 ^ 7) with 128.
      f_equal; [|lia].
      pose proof (Z.div_mod v 128 ltac:(lia)). nia.
Qed.

Lemma ConsumeVarint_AppendVarint (v : Z) (rest : list Byte.byte) :
  0 <= v < 2 ^ 64 ->
  ConsumeVarint (AppendVarint [] v ++ rest) = (v, Z.of_nat (length (AppendVarint [] v))).
Proof.
  intros Hv. unfold ConsumeVarint, AppendVarint. rewrite app_nil_l.
  rewrite (consume_varint_at_bytes 9 0 0 v rest); [| reflexivity | simpl; lia | exact Hv].
  change (7 * Z.of_nat 0) with 0. rewrite Z.pow_0_r, Z.mul_1_r, Z.add_0_l. reflexivity.
Qed.

Lemma AppendVarint_app (b : list Byte.byte) (v : Z) : AppendVarint b v = b ++ AppendVarint [] v.
Proof. reflexivity. Qed.

Lemma AppendBytes_app (b v : list Byte.byte) : AppendBytes b v = b ++ AppendBytes [] v.
Proof. unfold AppendBytes. rewrite AppendVarint_app, app_assoc. reflexivity. Qed.

Lemma skipn_after (p : nat) (data l1 l2 : list Byte.byte) :
  skipn p data = l1 ++ l2 -> skipn (p + length l1) data = l2.
Proof.
  revert p data. induction l1 as [|x l1 IH]; intros p data H.
  - rewrite Nat.add_0_r. exact H.
  - replace (p + length (x :: l1))%nat with (S p + length l1)%nat by (simpl; lia).
    apply IH. revert data H. induction p as [|p IHp]; intros data H.
    + destruct data as [|y data]; simpl in H; [discriminate|]. inversion H. reflexivity.
    + destruct data as [|y data]; simpl in H; [discriminate|]. apply IHp. exact H.
Qed.

Lemma ConsumeTag_AppendTag (n t : Z) (rest : list Byte.byte) :
  valid_num n = true -> 0 <= t < 8 ->
  ConsumeTag (AppendTag [] n t ++ rest) = (n, t, Z.of_nat (length (AppendTag [] n t))).
Proof.
  intros Hn Ht. unfold valid_num, MinValidNumber, MaxValidNumber in Hn.
  apply andb_true_iff in Hn as [H1 H2]. apply Z.leb_le in H1. apply Z.leb_le in H2.
  unfold ConsumeTag, AppendTag. rewrite EncodeTag_value by lia.
  rewrite ConsumeVarint_AppendVarint by lia.
  destruct (Z.of_nat _ <? 0) eqn:E; [zb; lia|].
  rewrite DecodeTag_value by (unfold MaxInt32; lia).
  destruct (n <? MinValidNumber) eqn:E2; [unfold MinValidNumber in E2; zb; lia|].
  reflexivity.
Qed.

Lemma ConsumeBytes_AppendBytes (b rest : list Byte.byte) :
  fits_int b = true ->
  ConsumeBytes (AppendBytes [] b ++ rest) = (b, Z.of_nat (length (AppendBytes [] b))).
Proof.
  intros Hb. unfold fits_int in Hb. apply Z.ltb_lt in Hb.
  unfold ConsumeBytes, AppendBytes. rewrite <- app_assoc.
  rewrite ConsumeVarint_AppendVarint by lia.
  destruct (Z.of_nat _ <? 0) eqn:E; [zb; lia|].
  rewrite Nat2Z.id.
  pose proof (skipn_after 0 (AppendVarint [] (Z.of_nat (length b)) ++ b ++ rest)
                (AppendVarint [] (Z.of_nat (length b))) (b ++ rest) eq_refl) as Hs.
  simpl in Hs. rewrite Hs.
  destruct (Z.of_nat (length b) >? Z.of_nat (length (b ++ rest))) eqn:E2.
  { rewrite length_app in E2. zb; lia. }
  rewrite Nat2Z.id, firstn_app, Nat.sub_diag, firstn_all. simpl. rewrite app_nil_r.
  rewrite length_app. f_equal. lia.
Qed.


Lemma enc_field_split (n : Z) (p : payload) :
  enc_field n p = AppendTag [] n (wire_type p) ++ field_body p.
Proof. destruct p; simpl; try rewrite AppendBytes_app; reflexivity. Qed.

Lemma wire_type_range (p : payload) : 0 <= wire_type p < 8.
Proof. destruct p; simpl; unfold VarintType, Fixed64Type, Fixed32Type, BytesType; lia. Qed.

Lemma skipField_body (p : payload) (rest : list Byte.byte) :
  wf_payload p = true ->
  skipField (field_body p ++ rest) (wire_type p) = Z.of_nat (length (field_body p)).
Proof.
  intros Hp. destruct p as [v|b|b|b|m]; simpl in Hp |- *; unfold skipField.
  - apply andb_true_iff in Hp as [H1 H2]. apply Z.leb_le in H1. apply Z.ltb_lt in H2.
    simpl. rewrite ConsumeVarint_AppendVarint by lia. reflexivity.
  - apply Nat.eqb_eq in Hp. simpl. unfold ConsumeFixed64.
    rewrite length_app, Hp. simpl. reflexivity.
  - apply Nat.eqb_eq in Hp. simpl. unfold ConsumeFixed32.
    rewrite length_app, Hp. simpl. reflexivity.
  - simpl. rewrite ConsumeBytes_AppendBytes by exact Hp. reflexivity.
  - apply andb_true_iff in Hp as [_ Hp].
    simpl. rewrite ConsumeBytes_AppendBytes by exact Hp. reflexivity.
Qed.

Lemma ConsumeBytes_body (p : payload) (rest : list Byte.byte) :
  is_ld p = true -> wf_payload p = true ->
  ConsumeBytes (field_body p ++ rest) = (ld_bytes p, Z.of_nat (length (field_body p))).
Proof.
  intros Hld Hp. destruct p as [v|b|b|b|m]; simpl in Hld, Hp |- *; try discriminate.
  - apply ConsumeBytes_AppendBytes. exact Hp.
  - apply andb_true_iff in Hp as [_ Hp]. apply ConsumeBytes_AppendBytes. exact Hp.
Qed.

(** One field of a well-formed buffer, walked by the shared loop body. *)
Lemma walk_step_field {A R : Type} errTag errBytes errSkip is_match (fail : string -> R)
    (on_match : nat -> Z -> list Byte.byte -> A -> step_result A R)
    (data : list Byte.byte) (c : cursor A) (n : Z) (q : payload) (rest : list Byte.byte) :
  skipn (pos c) data = enc_field n q ++ rest -> valid_num n = true -> wf_payload q = true ->
  walk_step errTag errBytes errSkip is_match fail on_match data c =
  if is_match n && is_ld q then
    on_match (pos c + length (AppendTag [] n (wire_type q)))%nat
      (Z.of_nat (length (field_body q))) (ld_bytes q) (acc c)
  else Continue (Cursor (pos c + length (enc_field n q))%nat (acc c)).
Proof.
  intros Hs Hn Hq. unfold walk_step.
  rewrite Hs, enc_field_split, <- app_assoc, ConsumeTag_AppendTag
    by (auto using wire_type_range).
  destruct (Z.of_nat _ <? 0) eqn:E; [zb; lia|]. rewrite Nat2Z.id.
  rewrite enc_field_split, <- app_assoc in Hs.
  pose proof (skipn_after _ _ _ _ Hs) as Hs'. rewrite Hs'.
  unfold is_ld. destruct (is_match n && (wire_type q =? BytesType)) eqn:Em.
  - apply andb_true_iff in Em as [_ Em].
    rewrite ConsumeBytes_body by (unfold is_ld; auto).
    destruct (Z.of_nat (length (field_body q)) <? 0) eqn:E3; [zb; lia|]. reflexivity.
  - rewrite skipField_body by exact Hq.
    destruct (Z.of_nat (length (field_body q)) <? 0) eqn:E3; [zb; lia|].
    rewrite Nat2Z.id, length_app, Nat.add_assoc. reflexivity.
Qed.

(** ** The machine: fuel, [exec] and [steps] *)

Section ExecFacts.
Context {A R : Type}.
Variable step : list Byte.byte -> cursor A -> step_result A R.

Lemma run_exec (fuel : nat) (data : list Byte.byte) (c : cursor A) (o : outcome A R) :
  run step fuel data c = o -> o <> OutOfFuel -> exec step data c o.
Proof.
  revert c. induction fuel as [|f IH]; intros c Hr Ho; simpl in Hr.
  - destruct (pos c <? length data)%nat eqn:E; [subst; congruence|].
    subst. apply exec_finish. zb. lia.
  - destruct (pos c <? length data)%nat eqn:E.
    + zb. destruct (step data c) as [c'|p r] eqn:Hs.
      * eapply exec_cont; eauto.
      * subst. apply exec_stop; auto.
    + subst. apply exec_finish. zb. lia.
Qed.

Lemma exec_not_oof (data : list Byte.byte) (c : cursor A) (o : outcome A R) :
  exec step data c o -> o <> OutOfFuel.
Proof. induction 1; congruence. Qed.

Hypothesis Hprogress : progress step.

Lemma exec_run (data : list Byte.byte) (c : cursor A) (o : outcome A R) :
  exec step data c o ->
  forall fuel, (length data - pos c <= fuel)%nat -> run step fuel data c = o.
Proof.
  induction 1 as [c Hle|c p r Hlt Hs|c c' o Hlt Hs Hex IH]; intros fuel Hf.
  - destruct fuel; simpl; destruct (pos c <? length data)%nat eqn:E;
      try reflexivity; zb; lia.
  - destruct fuel as [|f]; [lia|]. simpl.
    destruct (pos c <? length data)%nat eqn:E; [|zb; lia]. rewrite Hs. reflexivity.
  - destruct fuel as [|f]; [lia|]. simpl.
    destruct (pos c <? length data)%nat eqn:E; [|zb; lia]. rewrite Hs.
    apply IH. pose proof (Hprogress _ _ _ Hs). lia.
Qed.

Lemma run_total (data : list Byte.byte) :
  forall fuel c, (length data - pos c <= fuel)%nat -> run step fuel data c <> OutOfFuel.
Proof.
  induction fuel as [|f IH]; intros c Hf; simpl.
  - destruct (pos c <? length data)%nat eqn:E; [zb; lia|congruence].
  - destruct (pos c <? length data)%nat eqn:E; [|congruence].
    destruct (step data c) as [c'|p r] eqn:Hs; [|congruence].
    apply IH. pose proof (Hprogress _ _ _ Hs). zb. lia.
Qed.

Lemma exec_exists (data : list Byte.byte) (c : cursor A) : exists o, exec step data c o.
Proof.
  exists (run step (length data - pos c) data c).
  apply (run_exec (length data - pos c)); [reflexivity|].
  apply run_total. lia.
Qed.

Lemma exec_deterministic (data : list Byte.byte) (c : cursor A) (o1 o2 : outcome A R) :
  exec step data c o1 -> exec step data c o2 -> o1 = o2.
Proof.
  intros H1 H2.
  pose proof (exec_run data c o1 H1 (length data - pos c) ltac:(lia)) as E1.
  pose proof (exec_run data c o2 H2 (length data - pos c) ltac:(lia)) as E2.
  congruence.
Qed.

Lemma loop_exec (init : A) (finish : A -> R) (dflt : R) (data : list Byte.byte)
    (o : outcome A R) :
  exec step data (Cursor 0 init) o ->
  loop step init finish dflt data =
  match o with Finished c => finish (acc c) | Stopped _ r => r | OutOfFuel => dflt end.
Proof.
  intros H. unfold loop. rewrite (exec_run _ _ _ H (S (length data))) by (simpl; lia).
  reflexivity.
Qed.

Lemma steps_exec (data : list Byte.byte) (c c' : cursor A) (o : outcome A R) :
  steps step data c c' -> exec step data c' o -> exec step data c o.
Proof. induction 1; intros; [assumption|]. eapply exec_cont; eauto. Qed.

Lemma steps_trans (data : list Byte.byte) (c1 c2 c3 : cursor A) :
  steps step data c1 c2 -> steps step data c2 c3 -> steps step data c1 c3.
Proof. induction 1; intros; [assumption|]. eapply steps_cons; eauto. Qed.

End ExecFacts.

(** ** Lengths consumed by the primitives *)

Lemma consume_varint_at_len (i : nat) (v : Z) (b : list Byte.byte) :
  snd (consume_varint_at i v b) < 0 \/
  Z.of_nat i + 1 <= snd (consume_varint_at i v b) <= Z.of_nat i + Z.of_nat (length b).
Proof.
  revert i v. induction b as [|y b IH]; intros i v; simpl.
  - left. unfold errCodeTruncated. lia.
  - destruct (Nat.eqb i 9) eqn:E9.
    + zb. subst. destruct (bval y <? 2); cbn [snd];
        [right; simpl length; lia|left; unfold errCodeOverflow; lia].
    + destruct (bval y <? 128); cbn [snd]; [right; simpl length; lia|].
      match goal with |- context [consume_varint_at (S i) ?w b] =>
        destruct (IH (S i) w) as [H|H]; [left; exact H|right; simpl length; lia] end.
Qed.


Lemma ConsumeVarint_len (b : list Byte.byte) : consumed_ok (snd (ConsumeVarint b)) b.
Proof. unfold consumed_ok, ConsumeVarint. pose proof (consume_varint_at_len 0 0 b). lia. Qed.

Lemma ConsumeTag_len (b : list Byte.byte) :
  let '(_, _, n) := ConsumeTag b in consumed_ok n b.
Proof.
  unfold ConsumeTag. pose proof (ConsumeVarint_len b) as H.
  destruct (ConsumeVarint b) as [v n]. simpl in H.
  destruct (n <? 0) eqn:E; [exact H|].
  destruct (DecodeTag v) as [num typ].
  destruct (num <? MinValidNumber); [left; unfold errCodeFieldNumber; lia|exact H].
Qed.

Lemma ConsumeBytes_len (b : list Byte.byte) : consumed_ok (snd (ConsumeBytes b)) b.
Proof.
  unfold consumed_ok, ConsumeBytes, ConsumeVarint.
  pose proof (consume_varint_at_len 0 0 b) as Hn.
  destruct (consume_varint_at 0 0 b) as [m n] eqn:Ev.
  simpl in Hn.
  destruct (n <? 0) eqn:E; [simpl; zb; lia|].
  destruct (m >? Z.of_nat (length (skipn (Z.to_nat n) b))) eqn:E2;
    [simpl; left; unfold errCodeTruncated; lia|].
  simpl. zb. rewrite length_skipn in E2.
  assert (0 <= m).
  { (* a decoded varint that succeeded is non-negative *)
    clear -Ev E.
    assert (Hgen : forall i v b m n, 0 <= v -> consume_varint_at i v b = (m, n) -> 0 <= n ->
                   0 <= m).
    { intros i0 v0 b0. revert i0 v0. induction b0 as [|y b0 IH]; intros i0 v0 m0 n0 Hv H Hn;
        cbn [consume_varint_at] in H.
      - inversion H. lia.
      - pose proof (bval_bound y).
        destruct (Nat.eqb i0 9).
        + destruct (bval y <? 2); inversion H; subst; [apply Z.mod_pos_bound|]; lia.
        + destruct (bval y <? 128) eqn:Ey.
          * assert (Hm : m0 = v0 + Z.shiftl (bval y) (7 * Z.of_nat i0)) by congruence.
            rewrite Hm, Z.shiftl_mul_pow2 by lia.
            pose proof (Z.pow_nonneg 2 (7 * Z.of_nat i0)). nia.
          * zb. eapply IH; [|exact H|exact Hn].
            rewrite !Z.shiftl_mul_pow2 by lia.
            pose proof (Z.pow_nonneg 2 (7 * Z.of_nat i0)). nia. }
    zb. exact (Hgen 0%nat 0 b m n ltac:(lia) Ev E). }
  lia.
Qed.

Lemma skipField_len (b : list Byte.byte) (t : Z) : consumed_ok (skipField b t) b.
Proof.
  unfold consumed_ok, skipField.
  destruct (t =? VarintType); [apply ConsumeVarint_len|].
  destruct (t =? Fixed64Type).
  { unfold ConsumeFixed64. destruct (length b <? 8)%nat eqn:E; simpl;
      [left; unfold errCodeTruncated; lia|zb; lia]. }
  destruct (t =? BytesType); [apply ConsumeBytes_len|].
  destruct (t =? Fixed32Type).
  { unfold ConsumeFixed32. destruct (length b <? 4)%nat eqn:E; simpl;
      [left; unfold errCodeTruncated; lia|zb; lia]. }
  lia.
Qed.

(** ** The shared loop body: progress, bounds and its view *)

Lemma walk_step_view {A R : Type} errTag errBytes errSkip is_match (fail : string -> R)
    (on_match : nat -> Z -> list Byte.byte -> A -> step_result A R)
    (data : list Byte.byte) (c : cursor A) :
  walk_step errTag errBytes errSkip is_match fail on_match data c =
  match walk_view errTag errBytes errSkip is_match data (pos c) with
  | VFail p e => Stop p (fail e)
  | VMatch p n b => on_match p n b (acc c)
  | VSkip p' => Continue (Cursor p' (acc c))
  end.
Proof.
  unfold walk_step, walk_view.
  destruct (ConsumeTag (skipn (pos c) data)) as [[num typ] tl].
  destruct (tl <? 0); [reflexivity|].
  destruct (is_match num && (typ =? BytesType)).
  - destruct (ConsumeBytes _) as [b n]. destruct (n <? 0); reflexivity.
  - destruct (skipField _ _ <? 0); reflexivity.
Qed.

(** A matching or skipping iteration moves the cursor forward, never past
    the end of the view. *)
Lemma walk_view_progress errTag errBytes errSkip is_match data p0 :
  match walk_view errTag errBytes errSkip is_match data p0 with
  | VFail _ _ => True
  | VMatch p n _ => (p0 < p)%nat /\ 1 <= n /\ (p + Z.to_nat n <= length data)%nat
  | VSkip p' => (p0 < p' <= length data)%nat
  end.
Proof.
  unfold walk_view.
  pose proof (ConsumeTag_len (skipn p0 data)) as Ht.
  destruct (ConsumeTag (skipn p0 data)) as [[num typ] tl].
  unfold consumed_ok in Ht. rewrite length_skipn in Ht.
  destruct (tl <? 0) eqn:E; [exact I|]. zb.
  destruct (is_match num && (typ =? BytesType)).
  - pose proof (ConsumeBytes_len (skipn (p0 + Z.to_nat tl) data)) as Hb.
    destruct (ConsumeBytes _) as [b n]. simpl in Hb.
    unfold consumed_ok in Hb. rewrite length_skipn in Hb.
    destruct (n <? 0) eqn:E2; [exact I|]. zb. lia.
  - pose proof (skipField_len (skipn (p0 + Z.to_nat tl) data) typ) as Hb.
    unfold consumed_ok in Hb. rewrite length_skipn in Hb.
    destruct (skipField _ _ <? 0) eqn:E2; [exact I|]. zb. lia.
Qed.

Lemma walk_step_bounds {A R : Type} errTag errBytes errSkip is_match (fail : string -> R)
    (on_match : nat -> Z -> list Byte.byte -> A -> step_result A R) :
  (forall p n b a c', on_match p n b a = Continue c' -> pos c' = (p + Z.to_nat n)%nat) ->
  forall data c c',
  walk_step errTag errBytes errSkip is_match fail on_match data c = Continue c' ->
  (pos c < pos c' <= length data)%nat.
Proof.
  intros Hom data c c' Hs. rewrite walk_step_view in Hs.
  pose proof (walk_view_progress errTag errBytes errSkip is_match data (pos c)) as Hp.
  destruct (walk_view _ _ _ _ _ _) as [p e|p n b|p']; [discriminate| |].
  - apply Hom in Hs. lia.
  - inversion Hs; subst. simpl. lia.
Qed.

Lemma walk_step_progress {A R : Type} errTag errBytes errSkip is_match (fail : string -> R)
    (on_match : nat -> Z -> list Byte.byte -> A -> step_result A R) :
  (forall p n b a c', on_match p n b a = Continue c' -> pos c' = (p + Z.to_nat n)%nat) ->
  progress (walk_step errTag errBytes errSkip is_match fail on_match).
Proof.
  intros Hom data c c' Hs. pose proof (walk_step_bounds _ _ _ _ _ _ Hom _ _ _ Hs). lia.
Qed.

Lemma count_on_match_pos (k : list Byte.byte -> count_result) p n b a c' :
  count_on_match k p n b a = Continue c' -> pos c' = (p + Z.to_nat n)%nat.
Proof.
  unfold count_on_match. destruct (k b) as [x [e|]]; intros H; inversion H; reflexivity.
Qed.

Lemma extract_on_match_pos p n b a c' :
  extract_on_match p n b a = Continue c' -> pos c' = (p + Z.to_nat n)%nat.
Proof. intros H. inversion H. reflexivity. Qed.

Lemma resource_on_match_pos p n b a (c' : cursor unit) :
  resource_on_match p n b a = Continue c' -> pos c' = (p + Z.to_nat n)%nat.
Proof. discriminate. Qed.

Lemma count_step_progress errTag errBytes is_match k :
  progress (count_step errTag errBytes is_match k).
Proof. apply walk_step_progress, count_on_match_pos. Qed.

Lemma extract_step_progress errTag errBytes : progress (extract_step errTag errBytes).
Proof. apply walk_step_progress, extract_on_match_pos. Qed.

Lemma resource_step_progress messageType : progress (resource_step messageType).
Proof. apply walk_step_progress, resource_on_match_pos. Qed.

(** ** Walking a well-formed buffer *)

Lemma AppendTag_nonempty (n t : Z) : (1 <= length (AppendTag [] n t))%nat.
Proof. unfold AppendTag, AppendVarint. rewrite app_nil_l. apply varint_bytes_length. Qed.

Lemma skipn_lt (p : nat) (data l : list Byte.byte) :
  skipn p data = l -> (1 <= length l)%nat -> (p < length data)%nat.
Proof.
  intros H Hl. pose proof (length_skipn p data) as E. rewrite H in E. lia.
Qed.

Lemma walk_view_field errTag errBytes errSkip is_match data p0 n q rest :
  skipn p0 data = enc_field n q ++ rest -> valid_num n = true -> wf_payload q = true ->
  walk_view errTag errBytes errSkip is_match data p0 =
  if is_match n && is_ld q then
    VMatch (p0 + length (AppendTag [] n (wire_type q)))%nat
      (Z.of_nat (length (field_body q))) (ld_bytes q)
  else VSkip (p0 + length (enc_field n q))%nat.
Proof.
  intros Hs Hn Hq.
  pose proof (walk_step_field (A := unit) (R := view) errTag errBytes errSkip is_match
                (fun e => VFail 0 e) (fun p n b _ => Stop p (VMatch p n b)) data
                (Cursor p0 tt) n q rest Hs Hn Hq) as H.
  rewrite walk_step_view in H. cbn [pos acc] in H.
  destruct (walk_view _ _ _ _ _ _);
    destruct (is_match n && is_ld q); inversion H; reflexivity.
Qed.

Section WalkFields.
Context {A R : Type}.
Variables (errTag errBytes errSkip : string) (is_match : Z -> bool) (fail : string -> R).
Variable on_match : nat -> Z -> list Byte.byte -> A -> step_result A R.
Variable upd : list Byte.byte -> A -> A.
Variable ok : list Byte.byte -> Prop.
Hypothesis Hmatch : forall p n b a, ok b ->
  on_match p n b a = Continue (Cursor (p + Z.to_nat n)%nat (upd b a)).

Let step := walk_step errTag errBytes errSkip is_match fail on_match.

Lemma walk_fields (m : msg) :
  forall data p a rest,
  skipn p data = enc_msg m ++ rest -> wf_msg m = true -> Forall ok (matched is_match m) ->
  steps step data (Cursor p a)
    (Cursor (p + length (enc_msg m))%nat (fold_left (fun a b => upd b a) (matched is_match m) a)).
Proof.
  induction m as [|n q r IH]; intros data p a rest Hs Hwf Hok.
  - simpl. rewrite Nat.add_0_r. apply steps_refl.
  - cbn [wf_msg] in Hwf. apply andb_true_iff in Hwf as [Hwf Hr].
    apply andb_true_iff in Hwf as [Hn Hq].
    cbn [enc_msg] in Hs. rewrite <- app_assoc in Hs.
    assert (Hlt : (p < length data)%nat).
    { apply (skipn_lt _ _ _ Hs). rewrite length_app, enc_field_split, length_app.
      pose proof (AppendTag_nonempty n (wire_type q)). lia. }
    pose proof (skipn_after _ _ _ _ Hs) as Hs'.
    assert (Hlen : length (enc_field n q) =
                   (length (AppendTag [] n (wire_type q)) + length (field_body q))%nat).
    { rewrite enc_field_split, length_app. reflexivity. }
    cbn [matched enc_msg]. rewrite length_app.
    pose proof (walk_view_field errTag errBytes errSkip is_match _ _ _ _ _ Hs Hn Hq) as Hv.
    destruct (is_match n && is_ld q) eqn:Em.
    + cbn [matched] in Hok. rewrite Em in Hok. inversion Hok as [|x l Hb Hl]; subst.
      eapply steps_cons;
        [exact Hlt| unfold step; rewrite walk_step_view; cbn [pos acc]; rewrite Hv;
                    rewrite Hmatch by exact Hb; reflexivity|].
      rewrite Nat2Z.id, <- Nat.add_assoc, <- Hlen, Nat.add_assoc.
      cbn [fold_left]. apply (IH data _ _ rest Hs' Hr Hl).
    + cbn [matched] in Hok. rewrite Em in Hok.
      eapply steps_cons;
        [exact Hlt| unfold step; rewrite walk_step_view; cbn [pos acc]; rewrite Hv; reflexivity|].
      rewrite Nat.add_assoc. apply (IH data _ _ rest Hs' Hr Hok).
Qed.

End WalkFields.

(** ** Counting a well-formed buffer *)

Lemma count_on_match_ok (k : list Byte.byte -> count_result) p n b a :
  snd (k b) = None ->
  count_on_match k p n b a = Continue (Cursor (p + Z.to_nat n)%nat (a + fst (k b))%nat).
Proof. unfold count_on_match. destruct (k b) as [x e]. simpl. intros ->. reflexivity. Qed.

Lemma count_via_enc errTag errBytes is_match (k : list Byte.byte -> count_result) (m : msg) :
  wf_msg m = true -> Forall (fun b => snd (k b) = None) (matched is_match m) ->
  count_via errTag errBytes is_match k (enc_msg m) =
  (fold_left (fun a b => a + fst (k b))%nat (matched is_match m) 0%nat, None).
Proof.
  intros Hwf Hok.
  pose proof (walk_fields errTag errBytes "failed to skip field" is_match count_fail
                (count_on_match k) (fun b a => a + fst (k b))%nat (fun b => snd (k b) = None)
                (count_on_match_ok k) m (enc_msg m) 0 0%nat [] ltac:(rewrite app_nil_r; reflexivity)
                Hwf Hok) as Hst.
  eapply steps_exec in Hst; [|apply exec_finish; cbn [pos]; lia].
  unfold count_via. rewrite (loop_exec _ (count_step_progress _ _ _ _) _ _ _ _ _ Hst).
  reflexivity.
Qed.

Lemma fold_count_shift (f : list Byte.byte -> nat) (l : list (list Byte.byte)) (a : nat) :
  fold_left (fun a b => a + f b)%nat l a = (a + fold_left (fun a b => a + f b)%nat l 0)%nat.
Proof.
  revert a. induction l as [|x l IH]; intros a; cbn [fold_left]; [lia|].
  rewrite (IH (a + f x)%nat), (IH (0 + f x)%nat). lia.
Qed.

Lemma count_via_leaves errTag errBytes (j : Z) (m : msg) :
  wf_msg m = true ->
  count_via errTag errBytes (is_field j) count_one (enc_msg m) = (spec_leaves j m, None).
Proof.
  intros Hwf. rewrite count_via_enc by (auto; apply Forall_forall; reflexivity).
  f_equal. unfold spec_leaves. clear Hwf.
  enough (H : forall a,
    fold_left (fun a b => a + fst (count_one b))%nat (matched (is_field j) m) a =
    (a + msum (fun n p => if Z.eqb n j && is_ld p then 1 else 0) m)%nat)
    by (rewrite H; reflexivity).
  induction m as [|n q r IH]; intros a; cbn [matched msum fold_left]; [lia|].
  unfold is_field at 1.
  destruct ((n =? j) && is_ld q); cbn [fold_left]; rewrite IH; unfold count_one; cbn [fst]; lia.
Qed.

Lemma count_via_level errTag errBytes is_match (k : list Byte.byte -> count_result)
    (ok : msg -> bool) (sub : msg -> nat) (m : msg) :
  (forall v, ok v = true -> k (enc_msg v) = (sub v, None)) ->
  wf_level is_match ok m = true ->
  count_via errTag errBytes is_match k (enc_msg m) = (spec_level is_match sub m, None).
Proof.
  intros Hk Hwf. unfold wf_level in Hwf. apply andb_true_iff in Hwf as [Hwf Hall].
  assert (Hm : Forall (fun b => snd (k b) = None) (matched is_match m) /\
               fold_left (fun a b => a + fst (k b))%nat (matched is_match m) 0%nat =
               spec_level is_match sub m).
  { clear Hwf. unfold spec_level.
    induction m as [|n q r IH]; [split; [constructor|reflexivity]|].
    cbn [mall] in Hall. apply andb_true_iff in Hall as [Hq Hr]. destruct (IH Hr) as [IH1 IH2].
    unfold sub_ok in Hq. cbn [matched msum].
    destruct (is_match n) eqn:Em; cbn [andb].
    - destruct q as [v|b|b|b|v]; cbn [is_ld wire_type]; try discriminate;
        try (split; assumption).
      change (is_ld (PMsg v)) with true. cbn [ld_bytes].
      split; [constructor; [rewrite (Hk v Hq); reflexivity|exact IH1]|].
      cbn [fold_left]. rewrite (Hk v Hq). cbn [fst].
      rewrite fold_count_shift, IH2. reflexivity.
    - split; assumption. }
  destruct Hm as [Hm1 Hm2]. rewrite count_via_enc by assumption. rewrite Hm2. reflexivity.
Qed.

Lemma countDataPoints_enc (v : msg) :
  wf_msg v = true -> countDataPoints (enc_msg v) = (spec_leaves 1 v, None).
Proof. apply count_via_leaves. Qed.

Lemma countInMetric_enc (m : msg) :
  wf_metric m = true -> countInMetric (enc_msg m) = (spec_metric_points m, None).
Proof. exact (count_via_level _ _ _ _ _ _ m countDataPoints_enc). Qed.

Lemma countInScopeMetrics_enc (m : msg) :
  wf_scope_metrics m = true ->
  countInScopeMetrics (enc_msg m) = (spec_scope_metrics_points m, None).
Proof. exact (count_via_level _ _ _ _ _ _ m countInMetric_enc). Qed.

Lemma countInResourceMetrics_enc (m : msg) :
  wf_resource_metrics m = true ->
  countInResourceMetrics (enc_msg m) = (spec_resource_metrics_points m, None).
Proof. exact (count_via_level _ _ _ _ _ _ m countInScopeMetrics_enc). Qed.

(** C1: on every well-formed ExportMetricsServiceRequest, [countMetricDataPoints]
    (and [DataPointCount]) is the number of length-delimited fields 1 in the
    metric-variant containers (fields 5, 7, 9, 10, 11 of each Metric) reached
    through root field 1, field 2 and field 2, without error; on the batch of
    one metric with a 2-point gauge and a 1-point sum it is 3. *)
Theorem countMetricDataPoints_counts_points (m : msg) :
  wf_metrics_request m = true ->
  countMetricDataPoints (enc_msg m) = (spec_request_points m, None) /\
  ExportMetricsServiceRequest_DataPointCount (enc_msg m) = spec_request_points m /\
  ExportMetricsServiceRequest_DataPointCount (enc_msg batch_gauge2_sum1) = 3%nat.
Proof.
  intros Hwf.
  assert (H : countMetricDataPoints (enc_msg m) = (spec_request_points m, None))
    by exact (count_via_level _ _ _ _ _ _ m countInResourceMetrics_enc Hwf).
  split; [exact H|split].
  - unfold ExportMetricsServiceRequest_DataPointCount. rewrite H. reflexivity.
  - vm_compute. reflexivity.
Qed.

Lemma countMetricDataPoints_counts_points_witness :
  wf_metrics_request batch_gauge2_sum1 = true /\
  countMetricDataPoints (enc_msg batch_gauge2_sum1) = (3%nat, None).
Proof.
  assert (Hwf : wf_metrics_request batch_gauge2_sum1 = true) by (vm_compute; reflexivity).
  split; [exact Hwf|].
  destruct (countMetricDataPoints_counts_points batch_gauge2_sum1 Hwf) as [H _].
  rewrite H. vm_compute. reflexivity.
Defined.

(** ** A successful count walk and the extraction walk over the same buffer *)

Lemma fold_go_append (L : list (list Byte.byte)) (out : slice (list Byte.byte)) :
  slice_elems (fold_left go_append L out) = slice_elems out ++ L.
Proof.
  revert out. induction L as [|b L IH]; intros out; cbn [fold_left].
  - rewrite app_nil_r. reflexivity.
  - rewrite IH. unfold go_append. cbn [slice_elems]. rewrite <- app_assoc. reflexivity.
Qed.

Lemma fold_count_sum (f : list Byte.byte -> nat) (l : list (list Byte.byte)) :
  fold_left (fun a b => a + f b)%nat l 0%nat = list_sum (map f l).
Proof.
  induction l as [|x l IH]; [reflexivity|]. cbn [fold_left map list_sum fold_right].
  rewrite fold_count_shift, IH. unfold list_sum. lia.
Qed.

Lemma count_extract_exec errTag errBytes (k : list Byte.byte -> count_result)
    (data : list Byte.byte) (c : cursor nat) (o : outcome nat count_result) :
  exec (count_step errTag errBytes (is_field 1) k) data c o ->
  forall cf, o = Finished cf ->
  forall out, exists L,
    exec (extract_step errTag errBytes) data (Cursor (pos c) out)
         (Finished (Cursor (pos cf) (fold_left go_append L out))) /\
    acc cf = (acc c + fold_left (fun a b => a + fst (k b))%nat L 0)%nat /\
    Forall (fun b => snd (k b) = None) L.
Proof.
  induction 1 as [c Hle|c p r Hlt Hs|c c' o Hlt Hs Hex IH]; intros cf Ho out.
  - inversion Ho; subst. exists []. split; [apply exec_finish; exact Hle|].
    cbn [fold_left]. split; [lia|constructor].
  - discriminate.
  - unfold count_step in Hs. rewrite walk_step_view in Hs.
    destruct (walk_view _ _ _ _ data (pos c)) as [p e|p n b|p'] eqn:Hv.
    + discriminate.
    + unfold count_on_match in Hs. destruct (k b) as [x [e|]] eqn:Hk; [discriminate|].
      inversion Hs; subst c'. cbn [pos acc] in IH.
      destruct (IH cf Ho (go_append out b)) as [L [HL [Hacc HF]]].
      exists (b :: L). split; [|split].
      * eapply exec_cont; [exact Hlt| |exact HL].
        unfold extract_step. rewrite walk_step_view. cbn [pos acc]. rewrite Hv. reflexivity.
      * rewrite Hacc. cbn [fold_left]. rewrite (fold_count_shift _ L (0 + fst (k b))%nat).
        rewrite Hk. cbn [fst]. lia.
      * constructor; [rewrite Hk; reflexivity|exact HF].
    + inversion Hs; subst c'. cbn [pos acc] in IH.
      destruct (IH cf Ho out) as [L [HL [Hacc HF]]].
      exists L. split; [|split; [exact Hacc|exact HF]].
      eapply exec_cont; [exact Hlt| |exact HL].
      unfold extract_step. rewrite walk_step_view. cbn [pos acc]. rewrite Hv. reflexivity.
Qed.

(** A Stop of the counting loop always carries an error. *)
Lemma count_step_stop errTag errBytes is_match k data c p r :
  count_step errTag errBytes is_match k data c = Stop p r -> fst r = 0%nat /\ snd r <> None.
Proof.
  unfold count_step. rewrite walk_step_view.
  destruct (walk_view _ _ _ _ _ _) as [p' e|p' n b|p'].
  - intros H. inversion H; subst. split; [reflexivity|discriminate].
  - unfold count_on_match. destruct (k b) as [x [e|]]; intros H; inversion H; subst.
    split; [reflexivity|discriminate].
  - discriminate.
Qed.

Lemma count_via_exec errTag errBytes is_match k data :
  exists o, exec (count_step errTag errBytes is_match k) data (Cursor 0 0%nat) o /\
  count_via errTag errBytes is_match k data =
  match o with Finished c => (acc c, None) | Stopped _ r => r | OutOfFuel => (0%nat, None) end.
Proof.
  destruct (exec_exists _ (count_step_progress errTag errBytes is_match k) data (Cursor 0 0%nat))
    as [o Ho].
  exists o. split; [exact Ho|]. unfold count_via.
  exact (loop_exec _ (count_step_progress _ _ _ _) _ _ _ _ _ Ho).
Qed.

Lemma count_then_extract errTag errBytes (k : list Byte.byte -> count_result)
    (data : list Byte.byte) (n : nat) :
  count_via errTag errBytes (is_field 1) k data = (n, None) ->
  exists rs, extract_via errTag errBytes data = (rs, None) /\
    n = list_sum (map (fun r => fst (k r)) (slice_elems rs)) /\
    Forall (fun r => snd (k r) = None) (slice_elems rs).
Proof.
  intros Hc. destruct (count_via_exec errTag errBytes (is_field 1) k data) as [o [Ho Hv]].
  rewrite Hc in Hv. destruct o as [cf|p r|].
  - inversion Hv; subst n.
    destruct (count_extract_exec _ _ _ _ _ _ Ho cf eq_refl None) as [L [HL [Hacc HF]]].
    cbn [pos acc] in HL, Hacc.
    exists (fold_left go_append L None). split; [|split].
    + unfold extract_via. rewrite (loop_exec _ (extract_step_progress _ _) _ _ _ _ _ HL).
      reflexivity.
    + rewrite fold_go_append, Hacc, fold_count_sum. reflexivity.
    + rewrite fold_go_append. exact HF.
  - assert (Hs : exists c, exec (count_step errTag errBytes (is_field 1) k) data c (Stopped p r) /\
               exists c0, count_step errTag errBytes (is_field 1) k data c0 = Stop p r).
    { clear Hv Hc. remember (Stopped p r) as o eqn:Eo. revert Eo.
      induction Ho as [c Hle|c p' r' Hlt Hs|c c' o Hlt Hs Hex IH]; intros Eo;
        [discriminate| |].
      - inversion Eo; subst. exists c. split; [apply exec_stop; auto|]. exists c; exact Hs.
      - apply IH, Eo. }
    destruct Hs as [_ [_ [c0 Hs]]]. apply count_step_stop in Hs. rewrite <- Hv in Hs.
    destruct Hs as [_ Hs]. exfalso. apply Hs. reflexivity.
  - exfalso. exact (exec_not_oof _ _ _ _ Ho eq_refl).
Qed.

(** C2: whenever counting a batch succeeds, extraction succeeds too, every
    extracted resource counts without error and the batch count is the sum
    of the resource counts, in extraction order (metrics, logs, traces); on
    two resources of 5 and 15 points the batch count is 20 and extraction
    gives exactly the two resources, in encoding order, with counts [5; 15]. *)
Theorem batch_count_is_sum_of_resource_counts (d : list Byte.byte) (n : nat) :
  (countMetricDataPoints d = (n, None) ->
   exists rs, extractResourceMetrics d = (rs, None) /\
     n = list_sum (map (fun r => fst (countInResourceMetrics r)) (slice_elems rs)) /\
     Forall (fun r => snd (countInResourceMetrics r) = None) (slice_elems rs)) /\
  (countLogRecords d = (n, None) ->
   exists rs, extractResourceLogs d = (rs, None) /\
     n = list_sum (map (fun r => fst (countInResourceLogs r)) (slice_elems rs)) /\
     Forall (fun r => snd (countInResourceLogs r) = None) (slice_elems rs)) /\
  (countSpans d = (n, None) ->
   exists rs, extractResourceSpans d = (rs, None) /\
     n = list_sum (map (fun r => fst (countInResourceSpans r)) (slice_elems rs)) /\
     Forall (fun r => snd (countInResourceSpans r) = None) (slice_elems rs)) /\
  (countMetricDataPoints (enc_msg batch_5_15) = (20%nat, None) /\
   extractResourceMetrics (enc_msg batch_5_15) =
     (Some [enc_msg resource_5; enc_msg resource_15], None) /\
   map (fun r => fst (countInResourceMetrics r)) [enc_msg resource_5; enc_msg resource_15] =
     [5%nat; 15%nat]).
Proof.
  split; [apply count_then_extract|].
  split; [apply count_then_extract|].
  split; [apply count_then_extract|].
  split; [|split]; vm_compute; reflexivity.
Qed.

Lemma batch_count_is_sum_of_resource_counts_witness :
  exists rs, extractResourceMetrics (enc_msg batch_5_15) = (rs, None) /\
    20%nat = list_sum (map (fun r => fst (countInResourceMetrics r)) (slice_elems rs)).
Proof.
  destruct (batch_count_is_sum_of_resource_counts (enc_msg batch_5_15) 20) as [H _].
  assert (Hc : countMetricDataPoints (enc_msg batch_5_15) = (20%nat, None))
    by (vm_compute; reflexivity).
  destruct (H Hc) as [rs [He [Hn _]]]. exists rs. split; [exact He|exact Hn].
Defined.

(** ** Errors come with a zero count or a nil slice *)

Lemma exec_stopped_step {A R : Type} (step : list Byte.byte -> cursor A -> step_result A R)
    data c p r :
  exec step data c (Stopped p r) -> exists c0, step data c0 = Stop p r.
Proof.
  remember (Stopped p r) as o eqn:Eo. intros H. revert Eo.
  induction H as [c Hle|c p' r' Hlt Hs|c c' o Hlt Hs Hex IH]; intros Eo; [discriminate| |].
  - inversion Eo; subst. exists c. exact Hs.
  - apply IH, Eo.
Qed.

Lemma count_via_error errTag errBytes is_match k data c e :
  count_via errTag errBytes is_match k data = (c, Some e) -> c = 0%nat.
Proof.
  intros H. destruct (count_via_exec errTag errBytes is_match k data) as [o [Ho Hv]].
  rewrite H in Hv. destruct o as [cf|p r|]; [discriminate| |discriminate].
  destruct (exec_stopped_step _ _ _ _ _ Ho) as [c0 Hs].
  apply count_step_stop in Hs. rewrite <- Hv in Hs. destruct Hs as [Hs _]. exact Hs.
Qed.

Lemma extract_step_stop errTag errBytes data c p r :
  extract_step errTag errBytes data c = Stop p r -> exists e, r = (None, Some e).
Proof.
  unfold extract_step. rewrite walk_step_view.
  destruct (walk_view _ _ _ _ _ _) as [p' e|p' n b|p']; intros H; inversion H; subst.
  exists e. reflexivity.
Qed.

Lemma extract_via_exec errTag errBytes data :
  exists o, exec (extract_step errTag errBytes) data (Cursor 0 None) o /\
  extract_via errTag errBytes data =
  match o with Finished c => (acc c, None) | Stopped _ r => r | OutOfFuel => (None, None) end.
Proof.
  destruct (exec_exists _ (extract_step_progress errTag errBytes) data (Cursor 0 None)) as [o Ho].
  exists o. split; [exact Ho|]. unfold extract_via.
  exact (loop_exec _ (extract_step_progress _ _) _ _ _ _ _ Ho).
Qed.

Lemma extract_via_error errTag errBytes data rs e :
  extract_via errTag errBytes data = (rs, Some e) -> rs = None.
Proof.
  intros H. destruct (extract_via_exec errTag errBytes data) as [o [Ho Hv]].
  rewrite H in Hv. destruct o as [cf|p r|]; [discriminate| |discriminate].
  destruct (exec_stopped_step _ _ _ _ _ Ho) as [c0 Hs].
  apply extract_step_stop in Hs. destruct Hs as [e' ->]. congruence.
Qed.

(** ** The wrapped resource *)

Lemma wrap_enc (r : list Byte.byte) :
  AppendBytes (AppendTag [] 1 BytesType) r = enc_msg (MCons 1 (PBytes r) MNil).
Proof. cbn [enc_msg enc_field]. rewrite app_nil_r. reflexivity. Qed.

Lemma count_via_wrap errTag errBytes (k : list Byte.byte -> count_result) (r : list Byte.byte) :
  fits_int r = true ->
  count_via errTag errBytes (is_field 1) k (AppendBytes (AppendTag [] 1 BytesType) r) =
  match k r with (c, Some e) => (0%nat, Some e) | (c, None) => (c, None) end.
Proof.
  intros Hr. rewrite wrap_enc. set (d := enc_msg (MCons 1 (PBytes r) MNil)).
  assert (Hs : skipn (pos (Cursor 0 0%nat)) d = enc_field 1 (PBytes r) ++ [])
    by (cbn [pos skipn]; unfold d; cbn [enc_msg]; reflexivity).
  pose proof (walk_step_field (A := nat) (R := count_result) errTag errBytes
                "failed to skip field" (is_field 1) count_fail (count_on_match k) d
                (Cursor 0 0%nat) 1 (PBytes r) [] Hs eq_refl Hr) as Hw.
  change (is_field 1 1 && is_ld (PBytes r)) with true in Hw. cbn [pos acc] in Hw.
  assert (Hlen : length d = (length (AppendTag [] 1 BytesType) +
                             length (field_body (PBytes r)))%nat).
  { unfold d. cbn [enc_msg]. rewrite app_nil_r, enc_field_split, length_app. reflexivity. }
  change (wire_type (PBytes r)) with BytesType in Hlen, Hw.
  assert (Hlt : (0 < length d)%nat) by (pose proof (AppendTag_nonempty 1 BytesType); lia).
  unfold count_on_match in Hw. rewrite Nat2Z.id in Hw. change (ld_bytes (PBytes r)) with r in Hw.
  destruct (k r) as [c [e|]] eqn:Hk.
  - assert (Hex : exec (count_step errTag errBytes (is_field 1) k) d (Cursor 0 0%nat)
                    (Stopped (0 + length (AppendTag [] 1 BytesType) +
                              length (field_body (PBytes r)))%nat (0%nat, Some e)))
      by (apply exec_stop; [exact Hlt|exact Hw]).
    unfold count_via. rewrite (loop_exec _ (count_step_progress _ _ _ _) _ _ _ _ _ Hex).
    reflexivity.
  - assert (Hex : exec (count_step errTag errBytes (is_field 1) k) d (Cursor 0 0%nat)
                    (Finished (Cursor (0 + length (AppendTag [] 1 BytesType) +
                                       length (field_body (PBytes r)))%nat (0 + c)%nat))).
    { eapply exec_cont; [exact Hlt|exact Hw|]. apply exec_finish. cbn [pos]. lia. }
    unfold count_via. rewrite (loop_exec _ (count_step_progress _ _ _ _) _ _ _ _ _ Hex).
    reflexivity.
Qed.

Lemma extract_via_enc errTag errBytes (m : msg) :
  wf_msg m = true ->
  extract_via errTag errBytes (enc_msg m) =
  (fold_left go_append (matched (is_field 1) m) None, None).
Proof.
  intros Hwf.
  pose proof (walk_fields errTag errBytes "failed to skip field" (is_field 1) extract_fail
                extract_on_match (fun b a => go_append a b) (fun _ => True)
                (fun p n b a _ => eq_refl) m (enc_msg m) 0 None []
                ltac:(rewrite app_nil_r; reflexivity) Hwf
                ltac:(apply Forall_forall; intros; exact I)) as Hst.
  eapply steps_exec in Hst; [|apply exec_finish; cbn [pos]; lia].
  unfold extract_via. rewrite (loop_exec _ (extract_step_progress _ _) _ _ _ _ _ Hst).
  reflexivity.
Qed.

Lemma extract_via_wrap errTag errBytes (r : list Byte.byte) :
  fits_int r = true ->
  extract_via errTag errBytes (AppendBytes (AppendTag [] 1 BytesType) r) = (Some [r], None).
Proof.
  intros Hr. rewrite wrap_enc, extract_via_enc.
  - reflexivity.
  - cbn [wf_msg wf_payload]. rewrite Hr. reflexivity.
Qed.

Lemma AppendTag_1_BytesType : AppendTag [] 1 BytesType = [Byte.x0a].
Proof. reflexivity. Qed.

(** C5: [wrapResource*] (and [AsExportRequest]) emit exactly one field: the
    tag byte 0x0a of (field 1, length-delimited), the varint of [len(p)] and
    the bytes of [p], nothing else; it is the encoding of the one-field
    message [{1: p}], and walking it as a request yields exactly one
    resource entry, [p]. *)
Theorem wrap_is_one_field (p : list Byte.byte) :
  fits_int p = true ->
  wrapResourceMetrics p = Byte.x0a :: AppendVarint [] (Z.of_nat (length p)) ++ p /\
  wrapResourceLogs p = Byte.x0a :: AppendVarint [] (Z.of_nat (length p)) ++ p /\
  wrapResourceSpans p = Byte.x0a :: AppendVarint [] (Z.of_nat (length p)) ++ p /\
  ResourceMetrics_AsExportRequest p = enc_msg (MCons 1 (PBytes p) MNil) /\
  ResourceLogs_AsExportRequest p = enc_msg (MCons 1 (PBytes p) MNil) /\
  ResourceSpans_AsExportRequest p = enc_msg (MCons 1 (PBytes p) MNil) /\
  extractResourceMetrics (wrapResourceMetrics p) = (Some [p], None) /\
  extractResourceLogs (wrapResourceLogs p) = (Some [p], None) /\
  extractResourceSpans (wrapResourceSpans p) = (Some [p], None).
Proof.
  intros Hp.
  assert (H : AppendBytes (AppendTag [] 1 BytesType) p =
              Byte.x0a :: AppendVarint [] (Z.of_nat (length p)) ++ p).
  { rewrite AppendBytes_app, AppendTag_1_BytesType. unfold AppendBytes.
    reflexivity. }
  unfold wrapResourceMetrics, wrapResourceLogs, wrapResourceSpans,
    ResourceMetrics_AsExportRequest, ResourceLogs_AsExportRequest,
    ResourceSpans_AsExportRequest, extractResourceMetrics, extractResourceLogs,
    extractResourceSpans.
  rewrite !wrap_enc. rewrite <- !wrap_enc, !H.
  rewrite <- H, !extract_via_wrap by exact Hp.
  repeat split.
Qed.

Lemma wrap_is_one_field_witness :
  wrapResourceMetrics (bytes_of [1; 2; 3]) = bytes_of [10; 3; 1; 2; 3] /\
  extractResourceMetrics (wrapResourceMetrics (bytes_of [1; 2; 3])) =
    (Some [bytes_of [1; 2; 3]], None).
Proof.
  destruct (wrap_is_one_field (bytes_of [1; 2; 3]) ltac:(reflexivity))
    as [H1 [_ [_ [_ [_ [_ [H7 _]]]]]]].
  split; [rewrite H1; reflexivity|exact H7].
Defined.

Lemma count_via_wrap_count errTag errBytes errTag' errBytes' is_match
    (k : list Byte.byte -> count_result) (r : list Byte.byte) :
  fits_int r = true ->
  count_via errTag errBytes (is_field 1) (count_via errTag' errBytes' is_match k)
    (AppendBytes (AppendTag [] 1 BytesType) r) =
  count_via errTag' errBytes' is_match k r.
Proof.
  intros Hr. rewrite count_via_wrap by exact Hr.
  destruct (count_via errTag' errBytes' is_match k r) as [c [e|]] eqn:Hc; [|reflexivity].
  apply count_via_error in Hc. subst c. reflexivity.
Qed.

(** C6: counting a wrapped resource is counting the resource directly, value
    and error alike (metrics, logs, traces). *)
Theorem count_after_wrap (r : list Byte.byte) :
  fits_int r = true ->
  countMetricDataPoints (wrapResourceMetrics r) = countInResourceMetrics r /\
  countLogRecords (wrapResourceLogs r) = countInResourceLogs r /\
  countSpans (wrapResourceSpans r) = countInResourceSpans r.
Proof.
  intros Hr. split; [|split]; apply count_via_wrap_count; exact Hr.
Qed.

Lemma count_after_wrap_witness :
  countMetricDataPoints (wrapResourceMetrics (enc_msg resource_15)) = (15%nat, None) /\
  countMetricDataPoints (wrapResourceMetrics (bytes_of [18; 1; 128])) =
    (0%nat, Some "malformed protobuf tag in ScopeMetrics"%string).
Proof.
  destruct (count_after_wrap (enc_msg resource_15) ltac:(vm_compute; reflexivity)) as [H1 _].
  destruct (count_after_wrap (bytes_of [18; 1; 128]) ltac:(reflexivity)) as [H2 _].
  rewrite H1, H2. split; vm_compute; reflexivity.
Defined.

Lemma resource_step_stop messageType data c p r :
  resource_step messageType data c = Stop p r -> snd r <> None -> fst r = [].
Proof.
  unfold resource_step. rewrite walk_step_view.
  destruct (walk_view _ _ _ _ _ _) as [p' e|p' n b|p']; intros H; inversion H; subst;
    cbn [fst snd]; [reflexivity|congruence].
Qed.

Lemma extractResourceMessage_exec data messageType :
  exists o, exec (resource_step messageType) data (Cursor 0 tt) o /\
  extractResourceMessage data messageType =
  match o with Finished _ => ([], None) | Stopped _ r => r | OutOfFuel => ([], None) end.
Proof.
  destruct (exec_exists _ (resource_step_progress messageType) data (Cursor 0 tt)) as [o Ho].
  exists o. split; [exact Ho|]. unfold extractResourceMessage.
  rewrite (loop_exec _ (resource_step_progress _) _ _ _ _ _ Ho). destruct o; reflexivity.
Qed.

Lemma extractResourceMessage_error data messageType b e :
  extractResourceMessage data messageType = (b, Some e) -> b = [].
Proof.
  intros H. destruct (extractResourceMessage_exec data messageType) as [o [Ho Hv]].
  rewrite H in Hv. destruct o as [cf|p r|]; [discriminate| |discriminate].
  destruct (exec_stopped_step _ _ _ _ _ Ho) as [c0 Hs].
  pose proof (resource_step_stop _ _ _ _ _ Hs) as Hf. rewrite <- Hv in Hf.
  apply Hf. discriminate.
Qed.

(** A failing sub-message after well-formed fields: the loop returns at once
    with 0 and the sub-message's error, whatever follows. *)
Lemma count_via_propagates errTag errBytes is_match (k : list Byte.byte -> count_result)
    (pre : msg) (n : Z) (b rest : list Byte.byte) (c : nat) (e : string) :
  wf_msg pre = true -> Forall (fun b => snd (k b) = None) (matched is_match pre) ->
  valid_num n = true -> is_match n = true -> fits_int b = true -> k b = (c, Some e) ->
  count_via errTag errBytes is_match k (enc_msg pre ++ enc_field n (PBytes b) ++ rest) =
  (0%nat, Some e).
Proof.
  intros Hwf Hok Hn Hm Hb Hk.
  set (d := enc_msg pre ++ enc_field n (PBytes b) ++ rest).
  pose proof (walk_fields errTag errBytes "failed to skip field" is_match count_fail
                (count_on_match k) (fun b a => a + fst (k b))%nat (fun b => snd (k b) = None)
                (count_on_match_ok k) pre d 0 0%nat (enc_field n (PBytes b) ++ rest)
                eq_refl Hwf Hok) as Hst.
  set (a := fold_left _ _ _) in Hst.
  assert (Hs : skipn (pos (Cursor (0 + length (enc_msg pre)) a)) d =
               enc_field n (PBytes b) ++ rest).
  { cbn [pos]. apply (skipn_after 0 d (enc_msg pre)). reflexivity. }
  pose proof (walk_step_field (A := nat) (R := count_result) errTag errBytes
                "failed to skip field" is_match count_fail (count_on_match k) d
                _ n (PBytes b) rest Hs Hn Hb) as Hw.
  rewrite Hm in Hw. change (true && is_ld (PBytes b)) with true in Hw.
  unfold count_on_match in Hw. change (ld_bytes (PBytes b)) with b in Hw. rewrite Hk in Hw.
  assert (Hlt : (pos (Cursor (0 + length (enc_msg pre)) a) < length d)%nat).
  { apply (skipn_lt _ _ _ Hs). rewrite length_app, enc_field_split, length_app.
    pose proof (AppendTag_nonempty n (wire_type (PBytes b))). lia. }
  eapply steps_exec in Hst; [|eapply exec_stop; [exact Hlt|exact Hw]].
  unfold count_via. rewrite (loop_exec _ (count_step_progress _ _ _ _) _ _ _ _ _ Hst).
  reflexivity.
Qed.

(** C8: on every input, a counting function that returns an error returns
    the count 0, an extraction function the nil slice (the nil byte slice
    for the Resource lookups); an error of a sub-message reached after
    well-formed fields is the loop's result unchanged, with count 0, whatever
    follows it, so by the nesting of the levels an error at any depth is the
    top-level result (a truncated tag in a gauge, four levels down, is
    returned by [countMetricDataPoints] as it is). *)
Theorem errors_carry_no_partial_result (d : list Byte.byte) :
  Forall (fun f => forall c e, f d = (c, Some e) -> c = 0%nat)
    [countMetricDataPoints; countInResourceMetrics; countInScopeMetrics; countInMetric;
     countDataPoints; countLogRecords; countInResourceLogs; countInScopeLogs;
     countSpans; countInResourceSpans; countInScopeSpans] /\
  Forall (fun f => forall rs e, f d = (rs, Some e) -> rs = None)
    [extractResourceMetrics; extractResourceLogs; extractResourceSpans] /\
  Forall (fun f => forall b e, f d = (b, Some e) -> b = [])
    [extractResourceFromResourceMetrics; extractResourceFromResourceLogs;
     extractResourceFromResourceSpans] /\
  (forall errTag errBytes is_match k pre n b rest c e,
     wf_msg pre = true -> Forall (fun b => snd (k b) = None) (matched is_match pre) ->
     valid_num n = true -> is_match n = true -> fits_int b = true -> k b = (c, Some e) ->
     count_via errTag errBytes is_match k (enc_msg pre ++ enc_field n (PBytes b) ++ rest) =
     (0%nat, Some e)) /\
  countDataPoints (bytes_of [128]) = (0%nat, Some "malformed protobuf tag in metric data points"%string) /\
  countMetricDataPoints (enc_msg deep_bad_batch) =
    (0%nat, Some "malformed protobuf tag in metric data points"%string).
Proof.
  split; [repeat constructor; intros c e; apply count_via_error|].
  split; [repeat constructor; intros rs e; apply extract_via_error|].
  split; [repeat constructor; intros b e; apply extractResourceMessage_error|].
  split; [exact count_via_propagates|].
  split; vm_compute; reflexivity.
Qed.

Lemma errors_carry_no_partial_result_witness :
  countMetricDataPoints (enc_msg MNil ++ enc_field 1 (PBytes (bytes_of [128])) ++ []) =
    (0%nat, Some "malformed protobuf tag in ResourceMetrics"%string).
Proof.
  destruct (errors_carry_no_partial_result []) as [_ [_ [_ [Hp _]]]].
  apply (Hp _ _ _ _ MNil 1 (bytes_of [128]) [] 0%nat); try reflexivity.
  constructor.
Defined.

(** ** Failing at a walked position *)

Lemma walk_view_tag_error errTag errBytes errSkip is_match data q num t tl :
  ConsumeTag (skipn q data) = (num, t, tl) -> tl < 0 ->
  walk_view errTag errBytes errSkip is_match data q = VFail q errTag.
Proof.
  intros Ht Hl. unfold walk_view. rewrite Ht.
  destruct (tl <? 0) eqn:E; [reflexivity|zb; lia].
Qed.

Lemma walk_view_bytes_error errTag errBytes errSkip is_match data q num tl :
  ConsumeTag (skipn q data) = (num, BytesType, tl) -> 0 <= tl -> is_match num = true ->
  snd (ConsumeBytes (skipn (q + Z.to_nat tl) data)) < 0 ->
  walk_view errTag errBytes errSkip is_match data q = VFail (q + Z.to_nat tl)%nat errBytes.
Proof.
  intros Ht Hl Hm Hb. unfold walk_view. rewrite Ht.
  destruct (tl <? 0) eqn:E; [zb; lia|]. rewrite Hm. cbn [andb Z.eqb BytesType].
  destruct (ConsumeBytes _) as [b n]. cbn [snd] in Hb.
  destruct (n <? 0) eqn:E2; [reflexivity|zb; lia].
Qed.

Lemma walk_view_skip_error errTag errBytes errSkip is_match data q num t tl :
  ConsumeTag (skipn q data) = (num, t, tl) -> 0 <= tl ->
  is_match num && (t =? BytesType) = false ->
  skipField (skipn (q + Z.to_nat tl) data) t < 0 ->
  walk_view errTag errBytes errSkip is_match data q = VFail (q + Z.to_nat tl)%nat errSkip.
Proof.
  intros Ht Hl Hm Hs. unfold walk_view. rewrite Ht.
  destruct (tl <? 0) eqn:E; [zb; lia|]. rewrite Hm.
  destruct (skipField _ _ <? 0) eqn:E2; [reflexivity|zb; lia].
Qed.

(** Wire types 3, 4, 6 and 7 (groups and the undefined ones) cannot be skipped. *)
Lemma skipField_other_type (b : list Byte.byte) (t : Z) :
  t <> VarintType -> t <> Fixed64Type -> t <> BytesType -> t <> Fixed32Type ->
  skipField b t = -1.
Proof.
  intros H0 H1 H2 H5. unfold skipField.
  destruct (t =? VarintType) eqn:E0; [zb; lia|].
  destruct (t =? Fixed64Type) eqn:E1; [zb; lia|].
  destruct (t =? BytesType) eqn:E2; [zb; lia|].
  destruct (t =? Fixed32Type) eqn:E5; [zb; lia|]. reflexivity.
Qed.

Lemma count_via_fail_at errTag errBytes is_match (k : list Byte.byte -> count_result)
    (pre : msg) (bad : list Byte.byte) p e :
  wf_msg pre = true -> Forall (fun b => snd (k b) = None) (matched is_match pre) ->
  bad <> [] ->
  walk_view errTag errBytes "failed to skip field" is_match (enc_msg pre ++ bad)
    (length (enc_msg pre)) = VFail p e ->
  count_via errTag errBytes is_match k (enc_msg pre ++ bad) = (0%nat, Some e).
Proof.
  intros Hwf Hok Hne Hv. set (d := enc_msg pre ++ bad) in *.
  pose proof (walk_fields errTag errBytes "failed to skip field" is_match count_fail
                (count_on_match k) (fun b a => a + fst (k b))%nat (fun b => snd (k b) = None)
                (count_on_match_ok k) pre d 0 0%nat bad eq_refl Hwf Hok) as Hst.
  set (a := fold_left _ _ _) in Hst.
  assert (Hlt : (length (enc_msg pre) < length d)%nat).
  { unfold d. rewrite length_app. destruct bad; [congruence|cbn [length]; lia]. }
  eapply steps_exec in Hst;
    [|eapply exec_stop; [cbn [pos]; exact Hlt|
      unfold count_step; rewrite walk_step_view; cbn [pos]; rewrite Nat.add_0_l, Hv; reflexivity]].
  unfold count_via. rewrite (loop_exec _ (count_step_progress _ _ _ _) _ _ _ _ _ Hst).
  reflexivity.
Qed.

Lemma extract_via_fail_at errTag errBytes (pre : msg) (bad : list Byte.byte) p e :
  wf_msg pre = true -> bad <> [] ->
  walk_view errTag errBytes "failed to skip field" (is_field 1) (enc_msg pre ++ bad)
    (length (enc_msg pre)) = VFail p e ->
  extract_via errTag errBytes (enc_msg pre ++ bad) = (None, Some e).
Proof.
  intros Hwf Hne Hv. set (d := enc_msg pre ++ bad) in *.
  pose proof (walk_fields errTag errBytes "failed to skip field" (is_field 1) extract_fail
                extract_on_match (fun b a => go_append a b) (fun _ => True)
                (fun p n b a _ => eq_refl) pre d 0 None bad eq_refl Hwf
                ltac:(apply Forall_forall; intros; exact I)) as Hst.
  assert (Hlt : (length (enc_msg pre) < length d)%nat).
  { unfold d. rewrite length_app. destruct bad; [congruence|cbn [length]; lia]. }
  eapply steps_exec in Hst;
    [|eapply exec_stop; [cbn [pos]; exact Hlt|
      unfold extract_step; rewrite walk_step_view; cbn [pos]; rewrite Nat.add_0_l, Hv; reflexivity]].
  unfold extract_via. rewrite (loop_exec _ (extract_step_progress _ _) _ _ _ _ _ Hst).
  reflexivity.
Qed.

(** ** The cursor of a successful pass *)

Lemma exec_finished_at_end {A R : Type} (step : list Byte.byte -> cursor A -> step_result A R)
    (data : list Byte.byte) :
  (forall c c', step data c = Continue c' -> (pos c' <= length data)%nat) ->
  forall c cf, exec step data c (Finished cf) -> (pos c <= length data)%nat ->
  pos cf = length data.
Proof.
  intros Hb c cf H. remember (Finished cf) as o eqn:Eo. revert Eo.
  induction H as [c Hle|c p r Hlt Hs|c c' o Hlt Hs Hex IH]; intros Eo Hc.
  - inversion Eo; subst. lia.
  - discriminate.
  - apply IH; [exact Eo|]. exact (Hb _ _ Hs).
Qed.

Lemma count_step_bounds errTag errBytes is_match k data c c' :
  count_step errTag errBytes is_match k data c = Continue c' ->
  (pos c < pos c' <= length data)%nat.
Proof. apply walk_step_bounds, count_on_match_pos. Qed.

Lemma extract_step_bounds errTag errBytes data c c' :
  extract_step errTag errBytes data c = Continue c' -> (pos c < pos c' <= length data)%nat.
Proof. apply walk_step_bounds, extract_on_match_pos. Qed.

(** C9: in the counting and extraction loops, every iteration moves the
    cursor strictly forward without passing the end of the view; a pass
    that succeeds has walked, by such iterations, from 0 to exactly
    [len(data)], where it leaves the loop with its result. *)
Theorem successful_pass_ends_at_length :
  (forall errTag errBytes is_match k data c c',
     count_step errTag errBytes is_match k data c = Continue c' ->
     (pos c < pos c' <= length data)%nat) /\
  (forall errTag errBytes data c c',
     extract_step errTag errBytes data c = Continue c' ->
     (pos c < pos c' <= length data)%nat) /\
  (forall errTag errBytes is_match k data n,
     count_via errTag errBytes is_match k data = (n, None) ->
     exec (count_step errTag errBytes is_match k) data (Cursor 0 0%nat)
       (Finished (Cursor (length data) n))) /\
  (forall errTag errBytes data rs,
     extract_via errTag errBytes data = (rs, None) ->
     exec (extract_step errTag errBytes) data (Cursor 0 None)
       (Finished (Cursor (length data) rs))).
Proof.
  split; [exact count_step_bounds|].
  split; [exact extract_step_bounds|].
  split.
  - intros errTag errBytes is_match k data n Hc.
    destruct (count_via_exec errTag errBytes is_match k data) as [o [Ho Hv]].
    rewrite Hc in Hv. destruct o as [[p a]|p r|].
    + inversion Hv; subst a.
      pose proof (exec_finished_at_end _ data
                    (fun c c' Hs => proj2 (count_step_bounds _ _ _ _ _ _ _ Hs))
                    _ _ Ho ltac:(cbn [pos]; lia)) as Hp.
      cbn [pos] in Hp. subst p. exact Ho.
    + destruct (exec_stopped_step _ _ _ _ _ Ho) as [c0 Hs].
      apply count_step_stop in Hs. rewrite <- Hv in Hs. destruct Hs as [_ Hs].
      exfalso. apply Hs. reflexivity.
    + exfalso. exact (exec_not_oof _ _ _ _ Ho eq_refl).
  - intros errTag errBytes data rs He.
    destruct (extract_via_exec errTag errBytes data) as [o [Ho Hv]].
    rewrite He in Hv. destruct o as [[p a]|p r|].
    + inversion Hv; subst a.
      pose proof (exec_finished_at_end _ data
                    (fun c c' Hs => proj2 (extract_step_bounds _ _ _ _ _ Hs))
                    _ _ Ho ltac:(cbn [pos]; lia)) as Hp.
      cbn [pos] in Hp. subst p. exact Ho.
    + destruct (exec_stopped_step _ _ _ _ _ Ho) as [c0 Hs].
      apply extract_step_stop in Hs. destruct Hs as [e' ->]. discriminate.
    + exfalso. exact (exec_not_oof _ _ _ _ Ho eq_refl).
Qed.

Lemma successful_pass_ends_at_length_witness :
  exec (count_step "malformed protobuf tag in metric data points" "invalid bytes in DataPoints"
          (is_field 1) count_one)
    (enc_msg (sample_points 2)) (Cursor 0 0%nat)
    (Finished (Cursor (length (enc_msg (sample_points 2))) 2%nat)).
Proof.
  destruct successful_pass_ends_at_length as [_ [_ [H _]]].
  apply H. vm_compute. reflexivity.
Defined.

(** C9 is false for [extractResourceMessage], the loop that returns on its
    first match: it succeeds with the cursor right after the Resource tag,
    short of [len(data)]. *)
Lemma successful_pass_ends_at_length_counterexample :
  extractResourceFromResourceMetrics (bytes_of [10; 2; 8; 1; 18; 0]) = (bytes_of [8; 1], None) /\
  exec (resource_step "ResourceMetrics") (bytes_of [10; 2; 8; 1; 18; 0]) (Cursor 0 tt)
    (Stopped 1 (bytes_of [8; 1], None)) /\
  Nat.lt 1 (length (bytes_of [10; 2; 8; 1; 18; 0])).
Proof.
  split; [vm_compute; reflexivity|split; [|cbn; lia]].
  apply exec_stop; [cbn; lia|vm_compute; reflexivity].
Qed.

(** ** Resource lookup without a Resource field *)

Lemma extractResourceMessage_absent (m : msg) (messageType : string) :
  wf_msg m = true -> matched (is_field 1) m = [] ->
  extractResourceMessage (enc_msg m) messageType = ([], None).
Proof.
  intros Hwf Hnone.
  pose proof (walk_fields (String.append "malformed protobuf tag in " messageType)
                "invalid bytes in Resource" (String.append "failed to skip field in " messageType)
                (is_field 1) bytes_fail resource_on_match (fun _ a => a) (fun _ => False)
                (fun p n b a H => False_ind _ H) m (enc_msg m) 0 tt []
                ltac:(rewrite app_nil_r; reflexivity) Hwf
                ltac:(rewrite Hnone; constructor)) as Hst.
  eapply steps_exec in Hst; [|apply exec_finish; cbn [pos]; lia].
  unfold extractResourceMessage.
  rewrite (loop_exec _ (resource_step_progress _) _ _ _ _ _ Hst). reflexivity.
Qed.

(** C3 (as the code has it): on a well-formed ResourceMetrics, ResourceLogs
    or ResourceSpans without a length-delimited field 1, the walk exhausts
    the fields and the Resource lookup returns empty bytes and no error. *)
Theorem absent_resource_is_empty (m : msg) :
  wf_msg m = true -> matched (is_field 1) m = [] ->
  extractResourceFromResourceMetrics (enc_msg m) = ([], None) /\
  extractResourceFromResourceLogs (enc_msg m) = ([], None) /\
  extractResourceFromResourceSpans (enc_msg m) = ([], None) /\
  ResourceMetrics_Resource (enc_msg m) = [] /\
  ResourceLogs_Resource (enc_msg m) = [] /\
  ResourceSpans_Resource (enc_msg m) = [].
Proof.
  intros Hwf Hnone.
  unfold ResourceMetrics_Resource, ResourceLogs_Resource, ResourceSpans_Resource,
    extractResourceFromResourceMetrics, extractResourceFromResourceLogs,
    extractResourceFromResourceSpans.
  rewrite !extractResourceMessage_absent by assumption. repeat split.
Qed.

Lemma absent_resource_is_empty_witness :
  extractResourceFromResourceMetrics
    (enc_msg (MCons 2 (PMsg (MCons 2 (PMsg (sample_metric 1 0)) MNil)) MNil)) = ([], None).
Proof.
  apply absent_resource_is_empty; vm_compute; reflexivity.
Defined.

(** C3 is false: a ResourceMetrics with only a ScopeMetrics field has no
    Resource, and the lookup succeeds with empty bytes. *)
Lemma absent_resource_is_empty_counterexample :
  extractResourceFromResourceMetrics (bytes_of [18; 0]) = ([], None).
Proof. vm_compute. reflexivity. Qed.

(** C4 (as the code has it): a field with the level's matching number but
    not length-delimited takes the skipping branch, exactly as a field with
    any other number would; so only the length-delimited fields of the
    matching number are descended into. *)
Theorem matching_number_other_wire_type_is_skipped :
  (forall errTag errBytes errSkip is_match data p0 n q rest,
     skipn p0 data = enc_field n q ++ rest -> valid_num n = true -> wf_payload q = true ->
     is_ld q = false ->
     walk_view errTag errBytes errSkip is_match data p0 = VSkip (p0 + length (enc_field n q)) /\
     walk_view errTag errBytes errSkip (fun _ => false) data p0 =
       VSkip (p0 + length (enc_field n q))) /\
  (forall errTag errBytes is_match (k : list Byte.byte -> count_result) m,
     wf_msg m = true -> Forall (fun b => snd (k b) = None) (matched is_match m) ->
     count_via errTag errBytes is_match k (enc_msg m) =
     (fold_left (fun a b => a + fst (k b))%nat (matched is_match m) 0%nat, None)) /\
  (forall is_match n q r, is_ld q = false -> matched is_match (MCons n q r) = matched is_match r) /\
  countMetricDataPoints (enc_msg (MCons 1 (PVarint 5) batch_5_15)) = (20%nat, None).
Proof.
  split.
  { intros errTag errBytes errSkip is_match data p0 n q rest Hs Hn Hq Hld.
    rewrite !(walk_view_field _ _ _ _ _ _ _ _ _ Hs Hn Hq), Hld, !andb_false_r.
    split; reflexivity. }
  split; [exact count_via_enc|].
  split; [intros is_match n q r Hld; cbn [matched]; rewrite Hld, andb_false_r; reflexivity|].
  vm_compute. reflexivity.
Qed.

Lemma matching_number_other_wire_type_is_skipped_witness :
  walk_view "t" "b" "s" (is_field 1) (enc_msg (MCons 1 (PVarint 5) MNil)) 0 = VSkip 2.
Proof.
  destruct matching_number_other_wire_type_is_skipped as [H _].
  exact (proj1 (H "t" "b" "s" (is_field 1) _ 0%nat 1 (PVarint 5) []
                  ltac:(cbn [skipn enc_msg]; rewrite app_nil_r; reflexivity)
                  eq_refl eq_refl eq_refl))%string.
Defined.

(** C4 is false: a field 1 of wire type varint in a request is skipped, the
    count and the extraction succeed. *)
Lemma matching_number_other_wire_type_is_skipped_counterexample :
  countMetricDataPoints (bytes_of [8; 5]) = (0%nat, None) /\
  extractResourceMetrics (bytes_of [8; 5]) = (None, None) /\
  countLogRecords (bytes_of [8; 5]) = (0%nat, None).
Proof. split; [|split]; vm_compute; reflexivity. Qed.

(** ** The public methods on a failing traversal *)

Lemma split_by_resource_error (r : extract_result) : snd r <> None -> split_by_resource r = None.
Proof. destruct r as [rs [e|]]; [reflexivity|]. intros H. exfalso. apply H. reflexivity. Qed.

Lemma fst_count_error (r : count_result) :
  (forall c e, r = (c, Some e) -> c = 0%nat) -> snd r <> None -> fst r = 0%nat.
Proof.
  destruct r as [c [e|]]; intros H Hs; [exact (H c e eq_refl)|]. exfalso. apply Hs. reflexivity.
Qed.

(** C10 (as the code has it): when the traversal behind a public method
    fails, [DataPointCount], [LogRecordCount] and [SpanCount] return 0 and
    [SplitByResource] returns nil; an empty batch gives the count 0 too, but
    a non-nil empty slice, so the two are told apart only by comparing the
    split with nil. *)
Theorem public_methods_discard_errors (d : list Byte.byte) :
  (snd (countMetricDataPoints d) <> None -> ExportMetricsServiceRequest_DataPointCount d = 0%nat) /\
  (snd (countLogRecords d) <> None -> ExportLogsServiceRequest_LogRecordCount d = 0%nat) /\
  (snd (countSpans d) <> None -> ExportTracesServiceRequest_SpanCount d = 0%nat) /\
  (snd (extractResourceMetrics d) <> None -> ExportMetricsServiceRequest_SplitByResource d = None) /\
  (snd (extractResourceLogs d) <> None -> ExportLogsServiceRequest_SplitByResource d = None) /\
  (snd (extractResourceSpans d) <> None -> ExportTracesServiceRequest_SplitByResource d = None) /\
  ExportMetricsServiceRequest_DataPointCount [] = 0%nat /\
  ExportMetricsServiceRequest_SplitByResource [] = Some [] /\
  ExportLogsServiceRequest_SplitByResource [] = Some [] /\
  ExportTracesServiceRequest_SplitByResource [] = Some [].
Proof.
  unfold ExportMetricsServiceRequest_DataPointCount, ExportLogsServiceRequest_LogRecordCount,
    ExportTracesServiceRequest_SpanCount, ExportMetricsServiceRequest_SplitByResource,
    ExportLogsServiceRequest_SplitByResource, ExportTracesServiceRequest_SplitByResource.
  split; [apply fst_count_error; intros c e; apply count_via_error|].
  split; [apply fst_count_error; intros c e; apply count_via_error|].
  split; [apply fst_count_error; intros c e; apply count_via_error|].
  split; [apply split_by_resource_error|].
  split; [apply split_by_resource_error|].
  split; [apply split_by_resource_error|].
  repeat split.
Qed.

Lemma public_methods_discard_errors_witness :
  ExportMetricsServiceRequest_DataPointCount (bytes_of [11]) = 0%nat /\
  ExportMetricsServiceRequest_SplitByResource (bytes_of [11]) = None.
Proof.
  destruct (public_methods_discard_errors (bytes_of [11])) as [H1 [_ [_ [H4 _]]]].
  split; [apply H1|apply H4]; vm_compute; discriminate.
Defined.

(** C10 is false as stated: the split of a corrupted batch is nil, the
    split of an empty batch is a non-nil empty slice. *)
Lemma public_methods_discard_errors_counterexample :
  snd (countMetricDataPoints (bytes_of [11])) <> None /\
  ExportMetricsServiceRequest_DataPointCount (bytes_of [11]) =
    ExportMetricsServiceRequest_DataPointCount [] /\
  ExportMetricsServiceRequest_SplitByResource (bytes_of [11]) <>
    ExportMetricsServiceRequest_SplitByResource [].
Proof. split; [|split]; vm_compute; [discriminate|reflexivity|discriminate]. Qed.

(** * Further properties of the package *)

(** ** Logs and traces on well-formed requests *)

Lemma countInScopeLogs_enc (m : msg) :
  wf_msg m = true -> countInScopeLogs (enc_msg m) = (spec_leaves 2 m, None).
Proof. apply count_via_leaves. Qed.

Lemma countInScopeSpans_enc (m : msg) :
  wf_msg m = true -> countInScopeSpans (enc_msg m) = (spec_leaves 2 m, None).
Proof. apply count_via_leaves. Qed.

(** On every well-formed ExportLogsServiceRequest, [LogRecordCount] is the
    number of length-delimited fields 2 of the ScopeLogs reached through root
    field 1 and field 2, without error. *)
Theorem countLogRecords_counts_records (m : msg) :
  wf_request_leaves m = true ->
  countLogRecords (enc_msg m) = (spec_request_leaves m, None) /\
  ExportLogsServiceRequest_LogRecordCount (enc_msg m) = spec_request_leaves m.
Proof.
  intros Hwf.
  assert (H : countLogRecords (enc_msg m) = (spec_request_leaves m, None)).
  { apply (count_via_level _ _ _ _ wf_resource_leaves); [|exact Hwf].
    intros v Hv. apply (count_via_level _ _ _ _ wf_scope_leaves); [|exact Hv].
    exact countInScopeLogs_enc. }
  split; [exact H|]. unfold ExportLogsServiceRequest_LogRecordCount. rewrite H. reflexivity.
Qed.

Lemma countLogRecords_counts_records_witness :
  countLogRecords (enc_msg batch_leaves_3_2) = (5%nat, None).
Proof.
  rewrite (proj1 (countLogRecords_counts_records batch_leaves_3_2 ltac:(vm_compute; reflexivity))).
  vm_compute. reflexivity.
Defined.

(** The same for traces: [SpanCount] is the number of length-delimited
    fields 2 of the ScopeSpans reached through root field 1 and field 2. *)
Theorem countSpans_counts_spans (m : msg) :
  wf_request_leaves m = true ->
  countSpans (enc_msg m) = (spec_request_leaves m, None) /\
  ExportTracesServiceRequest_SpanCount (enc_msg m) = spec_request_leaves m.
Proof.
  intros Hwf.
  assert (H : countSpans (enc_msg m) = (spec_request_leaves m, None)).
  { apply (count_via_level _ _ _ _ wf_resource_leaves); [|exact Hwf].
    intros v Hv. apply (count_via_level _ _ _ _ wf_scope_leaves); [|exact Hv].
    exact countInScopeSpans_enc. }
  split; [exact H|]. unfold ExportTracesServiceRequest_SpanCount. rewrite H. reflexivity.
Qed.

Lemma countSpans_counts_spans_witness :
  ExportTracesServiceRequest_SpanCount (enc_msg batch_leaves_3_2) = 5%nat.
Proof.
  rewrite (proj2 (countSpans_counts_spans batch_leaves_3_2 ltac:(vm_compute; reflexivity))).
  vm_compute. reflexivity.
Defined.

(** ** Splitting well-formed requests *)

Lemma fold_go_append_nil (L : list (list Byte.byte)) :
  fold_left go_append L None = match L with [] => None | _ => Some L end.
Proof.
  destruct L as [|b L]; [reflexivity|].
  assert (H : forall L' (out : list (list Byte.byte)), fold_left go_append L' (Some out) = Some (out ++ L')).
  { induction L' as [|x L' IH]; intros out; cbn [fold_left].
    - rewrite app_nil_r. reflexivity.
    - change (go_append (Some out) x) with (Some (out ++ [x])). rewrite IH, <- app_assoc. reflexivity. }
  cbn [fold_left]. unfold go_append at 2. cbn [slice_elems app]. apply H.
Qed.

(** On every well-formed request, extraction returns the bytes of the
    length-delimited fields 1, in order (the nil slice when there are none),
    and [SplitByResource] returns them as a non-nil slice. *)
Theorem split_well_formed_request (m : msg) :
  wf_msg m = true ->
  let rs := matched (is_field 1) m in
  extractResourceMetrics (enc_msg m) = (match rs with [] => None | _ => Some rs end, None) /\
  extractResourceLogs (enc_msg m) = (match rs with [] => None | _ => Some rs end, None) /\
  extractResourceSpans (enc_msg m) = (match rs with [] => None | _ => Some rs end, None) /\
  ExportMetricsServiceRequest_SplitByResource (enc_msg m) = Some rs /\
  ExportLogsServiceRequest_SplitByResource (enc_msg m) = Some rs /\
  ExportTracesServiceRequest_SplitByResource (enc_msg m) = Some rs.
Proof.
  intros Hwf rs.
  assert (H : forall eT eB, extract_via eT eB (enc_msg m) =
                             (match rs with [] => None | _ => Some rs end, None)).
  { intros eT eB. rewrite extract_via_enc by exact Hwf. rewrite fold_go_append_nil. reflexivity. }
  unfold ExportMetricsServiceRequest_SplitByResource, ExportLogsServiceRequest_SplitByResource,
    ExportTracesServiceRequest_SplitByResource, extractResourceMetrics, extractResourceLogs,
    extractResourceSpans.
  rewrite !H. unfold split_by_resource. rewrite map_id. clearbody rs.
  destruct rs; repeat split.
Qed.

Lemma split_well_formed_request_witness :
  ExportMetricsServiceRequest_SplitByResource (enc_msg batch_5_15) =
    Some [enc_msg resource_5; enc_msg resource_15].
Proof.
  destruct (split_well_formed_request batch_5_15 ltac:(vm_compute; reflexivity))
    as [_ [_ [_ [H _]]]].
  exact H.
Defined.

(** ** The Resource lookup on well-formed messages *)

Lemma extractResourceMessage_first (pre : msg) (b rest : list Byte.byte) (messageType : string) :
  wf_msg pre = true -> matched (is_field 1) pre = [] -> fits_int b = true ->
  extractResourceMessage (enc_msg pre ++ enc_field 1 (PBytes b) ++ rest) messageType = (b, None).
Proof.
  intros Hwf Hnone Hb.
  set (d := enc_msg pre ++ enc_field 1 (PBytes b) ++ rest).
  pose proof (walk_fields (String.append "malformed protobuf tag in " messageType)
                "invalid bytes in Resource" (String.append "failed to skip field in " messageType)
                (is_field 1) bytes_fail resource_on_match (fun _ a => a) (fun _ => False)
                (fun p n b a H => False_ind _ H) pre d 0 tt (enc_field 1 (PBytes b) ++ rest)
                eq_refl Hwf ltac:(rewrite Hnone; constructor)) as Hst.
  assert (Hs : skipn (pos (Cursor (0 + length (enc_msg pre)) (fold_left (fun a _ => a)
                 (matched (is_field 1) pre) tt))) d = enc_field 1 (PBytes b) ++ rest).
  { cbn [pos]. apply (skipn_after 0 d (enc_msg pre)). reflexivity. }
  pose proof (walk_step_field (A := unit) (R := bytes_result)
                (String.append "malformed protobuf tag in " messageType)
                "invalid bytes in Resource" (String.append "failed to skip field in " messageType)
                (is_field 1) bytes_fail resource_on_match d _ 1 (PBytes b) rest Hs eq_refl Hb) as Hw.
  change (is_field 1 1 && is_ld (PBytes b)) with true in Hw.
  unfold resource_on_match in Hw. change (ld_bytes (PBytes b)) with b in Hw.
  assert (Hlt : (pos (Cursor (0 + length (enc_msg pre)) (fold_left (fun a _ => a)
                   (matched (is_field 1) pre) tt)) < length d)%nat).
  { apply (skipn_lt _ _ _ Hs). rewrite length_app, enc_field_split, length_app.
    pose proof (AppendTag_nonempty 1 (wire_type (PBytes b))). lia. }
  eapply steps_exec in Hst; [|eapply exec_stop; [exact Hlt|exact Hw]].
  unfold extractResourceMessage.
  rewrite (loop_exec _ (resource_step_progress _) _ _ _ _ _ Hst). reflexivity.
Qed.

Lemma enc_msg_app (m1 m2 : msg) : enc_msg (msg_app m1 m2) = enc_msg m1 ++ enc_msg m2.
Proof.
  induction m1 as [|n q r IH]; [reflexivity|]. cbn [msg_app enc_msg]. rewrite IH, app_assoc.
  reflexivity.
Qed.

Lemma wf_msg_app (m1 m2 : msg) :
  wf_msg (msg_app m1 m2) = wf_msg m1 && wf_msg m2.
Proof.
  induction m1 as [|n q r IH]; [reflexivity|]. cbn [msg_app wf_msg]. rewrite IH.
  rewrite !andb_assoc. reflexivity.
Qed.

Lemma matched_app (is_match : Z -> bool) (m1 m2 : msg) :
  matched is_match (msg_app m1 m2) = matched is_match m1 ++ matched is_match m2.
Proof.
  induction m1 as [|n q r IH]; [reflexivity|]. cbn [msg_app matched].
  destruct (is_match n && is_ld q); rewrite IH; reflexivity.
Qed.

Lemma enc_field_ld (n : Z) (q : payload) :
  is_ld q = true -> enc_field n q = enc_field n (PBytes (ld_bytes q)).
Proof. destruct q; try discriminate; reflexivity. Qed.

Lemma wf_payload_ld (q : payload) : is_ld q = true -> wf_payload q = true -> fits_int (ld_bytes q) = true.
Proof.
  destruct q; try discriminate; cbn [wf_payload ld_bytes]; intros _ H; [exact H|].
  apply andb_true_iff in H. apply H.
Qed.

Lemma extractResourceMessage_enc (m : msg) (messageType : string) :
  forall pre, wf_msg pre = true -> matched (is_field 1) pre = [] -> wf_msg m = true ->
  extractResourceMessage (enc_msg pre ++ enc_msg m) messageType =
  (hd [] (matched (is_field 1) m), None).
Proof.
  induction m as [|n q r IH]; intros pre Hpre Hnone Hwf.
  - rewrite app_nil_r. apply extractResourceMessage_absent; assumption.
  - cbn [wf_msg] in Hwf. apply andb_true_iff in Hwf as [Hwf Hr].
    apply andb_true_iff in Hwf as [Hn Hq].
    cbn [matched enc_msg]. destruct (is_field 1 n && is_ld q) eqn:Em.
    + apply andb_true_iff in Em as [E1 Eld]. unfold is_field in E1. apply Z.eqb_eq in E1. subst n.
      rewrite enc_field_ld by exact Eld. cbn [hd].
      apply extractResourceMessage_first; [exact Hpre|exact Hnone|].
      exact (wf_payload_ld q Eld Hq).
    + specialize (IH (msg_app pre (MCons n q MNil))).
      rewrite enc_msg_app, matched_app, wf_msg_app in IH. cbn [enc_msg matched wf_msg] in IH.
      rewrite Em, Hnone, Hpre, Hn, Hq, app_nil_r in IH. cbn [andb app] in IH.
      rewrite <- !app_assoc in IH. apply IH; reflexivity || exact Hr.
Qed.

(** [Resource()] returns the bytes of the first length-delimited field 1 and
    looks no further: after well-formed fields without one, the first such
    field is returned whatever follows; on a well-formed message it is the
    first field 1's bytes, or empty bytes when there is none, with no error. *)
Theorem resource_is_first_field_1 (pre : msg) (b rest : list Byte.byte) (m : msg) :
  wf_msg pre = true -> matched (is_field 1) pre = [] -> fits_int b = true -> wf_msg m = true ->
  ResourceMetrics_Resource (enc_msg pre ++ enc_field 1 (PBytes b) ++ rest) = b /\
  extractResourceFromResourceMetrics (enc_msg pre ++ enc_field 1 (PBytes b) ++ rest) = (b, None) /\
  extractResourceFromResourceLogs (enc_msg pre ++ enc_field 1 (PBytes b) ++ rest) = (b, None) /\
  extractResourceFromResourceSpans (enc_msg pre ++ enc_field 1 (PBytes b) ++ rest) = (b, None) /\
  extractResourceFromResourceMetrics (enc_msg m) = (hd [] (matched (is_field 1) m), None) /\
  extractResourceFromResourceLogs (enc_msg m) = (hd [] (matched (is_field 1) m), None) /\
  extractResourceFromResourceSpans (enc_msg m) = (hd [] (matched (is_field 1) m), None).
Proof.
  intros Hpre Hnone Hb Hm.
  unfold ResourceMetrics_Resource, extractResourceFromResourceMetrics,
    extractResourceFromResourceLogs, extractResourceFromResourceSpans.
  rewrite !extractResourceMessage_first by assumption.
  rewrite <- (app_nil_l (enc_msg m)). change [] with (enc_msg MNil).
  rewrite !extractResourceMessage_enc by (reflexivity || assumption).
  repeat split.
Qed.

Lemma resource_is_first_field_1_witness :
  ResourceMetrics_Resource
    (enc_msg (MCons 3 (PVarint 7) MNil) ++ enc_field 1 (PBytes (bytes_of [8; 1])) ++ bytes_of [255])
  = bytes_of [8; 1].
Proof.
  exact (proj1 (resource_is_first_field_1 (MCons 3 (PVarint 7) MNil) (bytes_of [8; 1])
                  (bytes_of [255]) MNil eq_refl eq_refl eq_refl eq_refl)).
Defined.

(** ** skipField *)

(** [skipField] on the encoded value of a well-formed field returns that
    value's length, whatever follows; on any input it returns a negative
    code or a length between 1 and the bytes available; wire types other
    than varint, fixed64, length-delimited and fixed32 give -1, and so do
    fixed64 and fixed32 values cut short. *)
Theorem skipField_skips_one_value (q : payload) (rest b : list Byte.byte) (t : Z) :
  wf_payload q = true ->
  skipField (field_body q ++ rest) (wire_type q) = Z.of_nat (length (field_body q)) /\
  (skipField b t < 0 \/ 1 <= skipField b t <= Z.of_nat (length b)) /\
  (t <> VarintType -> t <> Fixed64Type -> t <> BytesType -> t <> Fixed32Type ->
   skipField b t = -1) /\
  ((length b < 8)%nat -> skipField b Fixed64Type = -1) /\
  ((length b < 4)%nat -> skipField b Fixed32Type = -1).
Proof.
  intros Hq. split; [exact (skipField_body q rest Hq)|].
  split; [exact (skipField_len b t)|].
  split; [exact (skipField_other_type b t)|].
  split; intros Hl; unfold skipField; cbn -[ConsumeFixed64 ConsumeFixed32].
  - unfold ConsumeFixed64. destruct (Nat.ltb_spec (length b) 8); [reflexivity|lia].
  - unfold ConsumeFixed32. destruct (Nat.ltb_spec (length b) 4); [reflexivity|lia].
Qed.

Lemma skipField_skips_one_value_witness :
  skipField (field_body (PVarint 300) ++ bytes_of [1; 2]) VarintType = 2.
Proof.
  exact (proj1 (skipField_skips_one_value (PVarint 300) (bytes_of [1; 2]) [] 0 eq_refl)).
Defined.

(** ** Joining and splitting *)

Lemma concat_wrap (rs : list (list Byte.byte)) :
  concat (map (fun r => AppendBytes (AppendTag [] 1 BytesType) r) rs) = enc_msg (resources_msg rs).
Proof.
  induction rs as [|r rs IH]; [reflexivity|]. cbn [map concat resources_msg enc_msg].
  rewrite IH. reflexivity.
Qed.

Lemma resources_msg_wf (rs : list (list Byte.byte)) :
  Forall (fun r => fits_int r = true) rs ->
  wf_msg (resources_msg rs) = true /\ matched (is_field 1) (resources_msg rs) = rs.
Proof.
  induction 1 as [|r rs Hr Hrs IH]; [split; reflexivity|].
  destruct IH as [IH1 IH2]. cbn [resources_msg wf_msg wf_payload matched].
  rewrite Hr, IH1, IH2. split; reflexivity.
Qed.

(** Wrapping each resource as a request and concatenating the requests
    gives a batch that splits back into exactly those resources, in order
    (a protobuf concatenation merges the repeated field 1). *)
Theorem split_after_join (rs : list (list Byte.byte)) :
  Forall (fun r => fits_int r = true) rs ->
  extractResourceMetrics (concat (map wrapResourceMetrics rs)) =
    (match rs with [] => None | _ => Some rs end, None) /\
  ExportMetricsServiceRequest_SplitByResource (concat (map ResourceMetrics_AsExportRequest rs)) =
    Some rs /\
  ExportLogsServiceRequest_SplitByResource (concat (map ResourceLogs_AsExportRequest rs)) =
    Some rs /\
  ExportTracesServiceRequest_SplitByResource (concat (map ResourceSpans_AsExportRequest rs)) =
    Some rs.
Proof.
  intros Hrs. destruct (resources_msg_wf rs Hrs) as [Hwf Hm].
  assert (H : forall eT eB, extract_via eT eB (enc_msg (resources_msg rs)) =
                             (match rs with [] => None | _ => Some rs end, None)).
  { intros eT eB. rewrite extract_via_enc by exact Hwf. rewrite Hm, fold_go_append_nil. reflexivity. }
  unfold ExportMetricsServiceRequest_SplitByResource, ExportLogsServiceRequest_SplitByResource,
    ExportTracesServiceRequest_SplitByResource, extractResourceMetrics, extractResourceLogs,
    extractResourceSpans, ResourceMetrics_AsExportRequest, ResourceLogs_AsExportRequest,
    ResourceSpans_AsExportRequest, wrapResourceMetrics, wrapResourceLogs, wrapResourceSpans.
  rewrite !concat_wrap, !H. unfold split_by_resource. rewrite map_id.
  destruct rs; repeat split.
Qed.

Lemma split_after_join_witness :
  ExportMetricsServiceRequest_SplitByResource
    (concat (map ResourceMetrics_AsExportRequest [bytes_of [1]; []; bytes_of [2; 3]])) =
  Some [bytes_of [1]; []; bytes_of [2; 3]].
Proof.
  exact (proj1 (proj2 (split_after_join [bytes_of [1]; []; bytes_of [2; 3]]
                         ltac:(repeat constructor)))).
Defined.

(** ** Sizes *)

Lemma SizeVarint_small (v : Z) : 0 <= v < 128 -> SizeVarint v = 1.
Proof.
  intros Hv. unfold SizeVarint, Len64.
  destruct (v =? 0) eqn:E; [reflexivity|]. zb.
  assert (Z.log2 v < 7) by (apply Z.log2_lt_pow2; lia).
  pose proof (Z.log2_nonneg v). Z.div_mod_to_equations. lia.
Qed.

Lemma SizeVarint_shift (v : Z) : 128 <= v < 2 ^ 64 -> SizeVarint v = 1 + SizeVarint (Z.shiftr v 7).
Proof.
  intros Hv. unfold SizeVarint, Len64.
  destruct (v =? 0) eqn:E; [zb; lia|].
  rewrite Z.shiftr_div_pow2 by lia.
  assert (Hq : 1 <= v / 2 ^ 7) by (apply Z.div_le_lower_bound; lia).
  destruct (v / 2 ^ 7 =? 0) eqn:E2; [zb; lia|].
  rewrite <- Z.shiftr_div_pow2, Z.log2_shiftr by lia.
  assert (H7 : 7 <= Z.log2 v) by (change 7 with (Z.log2 (2 ^ 7)); apply Z.log2_le_mono; lia).
  assert (H64 : Z.log2 v < 64) by (apply Z.log2_lt_pow2; lia).
  rewrite Z.max_r by lia. Z.div_mod_to_equations. lia.
Qed.

Lemma varint_bytes_size (k : nat) (v : Z) :
  (k <= 9)%nat -> 0 <= v < 2 ^ (7 * Z.of_nat k + 1) ->
  Z.of_nat (length (varint_bytes k v)) = SizeVarint v.
Proof.
  revert v. induction k as [|k IH]; intros v Hk Hv.
  - cbn [varint_bytes length]. rewrite SizeVarint_small; [reflexivity|].
    change (7 * Z.of_nat 0 + 1) with 1 in Hv. lia.
  - cbn [varint_bytes]. destruct (v <? 128) eqn:E.
    + zb. rewrite SizeVarint_small by lia. reflexivity.
    + zb. cbn [length]. rewrite Nat2Z.inj_succ, IH.
      * rewrite (SizeVarint_shift v); [lia|]. split; [lia|].
        apply (Z.lt_le_trans _ _ _ (proj2 Hv)). apply Z.pow_le_mono_r; lia.
      * lia.
      * rewrite Z.shiftr_div_pow2 by lia. split; [apply Z.div_pos; lia|].
        apply Z.div_lt_upper_bound; [lia|].
        rewrite <- Z.pow_add_r by lia.
        replace (7 + (7 * Z.of_nat k + 1)) with (7 * Z.of_nat (S k) + 1) by lia. exact (proj2 Hv).
Qed.

(** The buffer [wrapResource*] allocates has exactly the length of the
    result: [totalSize = SizeTag(1) + SizeBytes(len(r))] is [len(wrap(r))],
    so the two appends never grow it. *)
Theorem wrap_total_size_exact (r : list Byte.byte) :
  fits_int r = true ->
  Z.of_nat (length (wrapResourceMetrics r)) = wrap_total_size r /\
  Z.of_nat (length (wrapResourceLogs r)) = wrap_total_size r /\
  Z.of_nat (length (wrapResourceSpans r)) = wrap_total_size r.
Proof.
  intros Hr. unfold fits_int in Hr. zb.
  assert (H : Z.of_nat (length (AppendBytes (AppendTag [] 1 BytesType) r)) = wrap_total_size r).
  { rewrite AppendBytes_app, AppendTag_1_BytesType. unfold AppendBytes, AppendVarint.
    rewrite app_nil_l, !length_app, !Nat2Z.inj_add, varint_bytes_size.
    - unfold wrap_total_size, SizeBytes. change (SizeTag 1) with 1. cbn [length]. lia.
    - lia.
    - split; [lia|]. change (7 * Z.of_nat 9 + 1) with 64. lia. }
  split; [exact H|split; exact H].
Qed.

Lemma wrap_total_size_exact_witness :
  Z.of_nat (length (wrapResourceMetrics (repeat Byte.x00 200))) = wrap_total_size (repeat Byte.x00 200) /\
  wrap_total_size (repeat Byte.x00 200) = 203.
Proof.
  split; [exact (proj1 (wrap_total_size_exact (repeat Byte.x00 200) eq_refl))|].
  vm_compute. reflexivity.
Defined.

(** ** Decoding does not look past what it consumes *)

Lemma consume_varint_at_app (i : nat) (v : Z) (b c : list Byte.byte) (x n : Z) :
  consume_varint_at i v b = (x, n) -> 0 <= n -> consume_varint_at i v (b ++ c) = (x, n).
Proof.
  revert i v. induction b as [|y b IH]; intros i v H Hn.
  - cbn in H. inversion H; subst. unfold errCodeTruncated in Hn. lia.
  - cbn [app consume_varint_at] in H |- *.
    destruct (Nat.eqb i 9); [exact H|].
    destruct (bval y <? 128); [exact H|]. apply IH; assumption.
Qed.

Lemma ConsumeVarint_app (b c : list Byte.byte) (x n : Z) :
  ConsumeVarint b = (x, n) -> 0 <= n -> ConsumeVarint (b ++ c) = (x, n).
Proof. apply consume_varint_at_app. Qed.

Lemma ConsumeTag_app (b c : list Byte.byte) (num t n : Z) :
  ConsumeTag b = (num, t, n) -> 0 <= n -> ConsumeTag (b ++ c) = (num, t, n).
Proof.
  unfold ConsumeTag. destruct (ConsumeVarint b) as [v n0] eqn:Ev.
  destruct (n0 <? 0) eqn:E.
  - intros H Hn. inversion H; subst. zb. lia.
  - zb. rewrite (ConsumeVarint_app _ _ _ _ Ev E). destruct (n0 <? 0) eqn:E'; [zb; lia|].
    intros H _. exact H.
Qed.

Lemma skipn_app_le (p : nat) (b c : list Byte.byte) :
  (p <= length b)%nat -> skipn p (b ++ c) = skipn p b ++ c.
Proof.
  intros Hp. rewrite skipn_app. replace (p - length b)%nat with 0%nat by lia. reflexivity.
Qed.

Lemma ConsumeBytes_app (b c : list Byte.byte) (m : list Byte.byte) (n : Z) :
  ConsumeBytes b = (m, n) -> 0 <= n -> ConsumeBytes (b ++ c) = (m, n).
Proof.
  unfold ConsumeBytes.
  pose proof (ConsumeVarint_len b) as Hl. unfold consumed_ok in Hl.
  destruct (ConsumeVarint b) as [len n0] eqn:Ev. cbn [snd] in Hl.
  destruct (n0 <? 0) eqn:E.
  - intros H Hn. inversion H; subst. zb. lia.
  - zb. rewrite (ConsumeVarint_app _ _ _ _ Ev E). destruct (n0 <? 0) eqn:E'; [zb; lia|].
    rewrite skipn_app_le by lia.
    destruct (len >? Z.of_nat (length (skipn (Z.to_nat n0) b))) eqn:E2.
    + intros H Hn. inversion H; subst. unfold errCodeTruncated in Hn. lia.
    + zb. rewrite length_app.
      destruct (len >? Z.of_nat (length (skipn (Z.to_nat n0) b) + length c)) eqn:E3; [zb; lia|].
      intros H _. rewrite firstn_app.
      replace (Z.to_nat len - length (skipn (Z.to_nat n0) b))%nat with 0%nat by lia.
      rewrite app_nil_r. exact H.
Qed.

Lemma skipField_app (b c : list Byte.byte) (t : Z) :
  0 <= skipField b t -> skipField (b ++ c) t = skipField b t.
Proof.
  unfold skipField. intros H.
  destruct (t =? VarintType).
  { destruct (ConsumeVarint b) as [x n] eqn:Ev. cbn [snd] in H |- *.
    rewrite (ConsumeVarint_app _ _ _ _ Ev H). reflexivity. }
  destruct (t =? Fixed64Type).
  { unfold ConsumeFixed64 in H |- *. rewrite length_app.
    destruct (length b <? 8)%nat eqn:E; [cbn [snd] in H; unfold errCodeTruncated in H; lia|].
    zb. destruct (length b + length c <? 8)%nat eqn:E2; [zb; lia|].
    cbn [snd]. reflexivity. }
  destruct (t =? BytesType).
  { destruct (ConsumeBytes b) as [x n] eqn:Ev. cbn [snd] in H |- *.
    rewrite (ConsumeBytes_app _ _ _ _ Ev H). reflexivity. }
  destruct (t =? Fixed32Type).
  { unfold ConsumeFixed32 in H |- *. rewrite length_app.
    destruct (length b <? 4)%nat eqn:E; [cbn [snd] in H; unfold errCodeTruncated in H; lia|].
    zb. destruct (length b + length c <? 4)%nat eqn:E2; [zb; lia|].
    cbn [snd]. reflexivity. }
  lia.
Qed.

(** An iteration that does not fail on [d1] decides the same on [d1 ++ d2]. *)
Lemma walk_view_app errTag errBytes errSkip is_match (d1 d2 : list Byte.byte) (p0 : nat) :
  (p0 <= length d1)%nat ->
  match walk_view errTag errBytes errSkip is_match d1 p0 with
  | VFail _ _ => True
  | v => walk_view errTag errBytes errSkip is_match (d1 ++ d2) p0 = v
  end.
Proof.
  intros Hp. unfold walk_view. rewrite skipn_app_le by exact Hp.
  pose proof (ConsumeTag_len (skipn p0 d1)) as Ht.
  destruct (ConsumeTag (skipn p0 d1)) as [[num t] tl] eqn:Et.
  unfold consumed_ok in Ht. rewrite length_skipn in Ht.
  destruct (tl <? 0) eqn:E; [exact I|]. zb.
  rewrite (ConsumeTag_app _ _ _ _ _ Et E). destruct (tl <? 0) eqn:E'; [zb; lia|].
  rewrite skipn_app_le by lia.
  destruct (is_match num && (t =? BytesType)).
  - destruct (ConsumeBytes (skipn (p0 + Z.to_nat tl) d1)) as [b n] eqn:Eb.
    destruct (n <? 0) eqn:E2; [exact I|]. zb.
    rewrite (ConsumeBytes_app _ _ _ _ Eb E2). destruct (n <? 0) eqn:E3; [zb; lia|]. reflexivity.
  - destruct (skipField (skipn (p0 + Z.to_nat tl) d1) t <? 0) eqn:E2; [exact I|]. zb.
    rewrite (skipField_app _ _ _ E2). destruct (_ <? 0) eqn:E3; [zb; lia|]. reflexivity.
Qed.

(** An iteration at [len(d1) + p] of [d1 ++ d2] is the iteration at [p] of
    [d2], moved by [len(d1)]. *)
Lemma walk_view_shift errTag errBytes errSkip is_match (d1 d2 : list Byte.byte) (p0 : nat) :
  match walk_view errTag errBytes errSkip is_match d2 p0 with
  | VFail q e => walk_view errTag errBytes errSkip is_match (d1 ++ d2) (length d1 + p0) =
                 VFail (length d1 + q) e
  | VMatch q n b => walk_view errTag errBytes errSkip is_match (d1 ++ d2) (length d1 + p0) =
                    VMatch (length d1 + q) n b
  | VSkip q => walk_view errTag errBytes errSkip is_match (d1 ++ d2) (length d1 + p0) =
               VSkip (length d1 + q)
  end.
Proof.
  assert (Hs : forall p, skipn (length d1 + p) (d1 ++ d2) = skipn p d2).
  { intros p. rewrite skipn_app, skipn_all2 by lia.
    replace (length d1 + p - length d1)%nat with p by lia. reflexivity. }
  unfold walk_view. rewrite Hs.
  destruct (ConsumeTag (skipn p0 d2)) as [[num t] tl].
  destruct (tl <? 0); [reflexivity|].
  destruct (is_match num && (t =? BytesType)).
  - destruct (ConsumeBytes (skipn (p0 + Z.to_nat tl) d2)) as [b n] eqn:Eb.
    rewrite <- Nat.add_assoc, Hs, Eb. destruct (n <? 0); rewrite ?Nat.add_assoc; reflexivity.
  - destruct (skipField (skipn (p0 + Z.to_nat tl) d2) t <? 0) eqn:E;
      rewrite <- Nat.add_assoc, Hs, E; rewrite ?Nat.add_assoc; reflexivity.
Qed.

Lemma exec_finished_steps {A R : Type} (step : list Byte.byte -> cursor A -> step_result A R)
    (data : list Byte.byte) (c cf : cursor A) :
  exec step data c (Finished cf) -> steps step data c cf.
Proof.
  intros H. remember (Finished cf) as o eqn:Eo. revert Eo.
  induction H as [c Hle|c p r Hlt Hs|c c' o Hlt Hs Hex IH]; intros Eo.
  - inversion Eo; subst. apply steps_refl.
  - discriminate.
  - eapply steps_cons; eauto.
Qed.

Section WalkConcat.
Context {A R : Type}.
Variables (errTag errBytes errSkip : string) (is_match : Z -> bool) (fail : string -> R)
  (on_match : nat -> Z -> list Byte.byte -> A -> step_result A R).

Local Abbreviation step := (walk_step errTag errBytes errSkip is_match fail on_match).

(** Iterations that continue on [d1] continue alike on [d1 ++ d2]. *)
Lemma walk_steps_app (d1 d2 : list Byte.byte) (c c' : cursor A) :
  steps step d1 c c' -> steps step (d1 ++ d2) c c'.
Proof.
  induction 1 as [c|c c' c'' Hlt Hs Hst IH]; [apply steps_refl|].
  apply (steps_cons _ _ c c' c''); [rewrite length_app; lia| |exact IH].
  rewrite walk_step_view in Hs |- *.
  pose proof (walk_view_app errTag errBytes errSkip is_match d1 d2 (pos c) ltac:(lia)) as Hv.
  destruct (walk_view errTag errBytes errSkip is_match d1 (pos c)); [discriminate| |];
    rewrite Hv; exact Hs.
Qed.

(** A run on [d2] is also a run on [d1 ++ d2], shifted by [len(d1)], when
    the match action commutes with the shift [f] of the accumulator. *)
Lemma walk_exec_shift (d1 d2 : list Byte.byte) (f : A -> A) :
  (forall p n b a, on_match (length d1 + p) n b (f a) =
     match on_match p n b a with
     | Continue c => Continue (Cursor (length d1 + pos c) (f (acc c)))
     | Stop q r => Stop (length d1 + q) r
     end) ->
  forall c o, exec step d2 c o ->
  match o with
  | Finished cf => exec step (d1 ++ d2) (Cursor (length d1 + pos c) (f (acc c)))
                     (Finished (Cursor (length d1 + pos cf) (f (acc cf))))
  | Stopped p r => exec step (d1 ++ d2) (Cursor (length d1 + pos c) (f (acc c)))
                     (Stopped (length d1 + p) r)
  | OutOfFuel => True
  end.
Proof.
  intros Hshift c o H.
  induction H as [c Hle|c p r Hlt Hs|c c' o Hlt Hs Hex IH].
  - apply exec_finish. cbn [pos]. rewrite length_app. lia.
  - apply exec_stop; [cbn [pos]; rewrite length_app; lia|].
    rewrite walk_step_view in Hs |- *. cbn [pos acc].
    pose proof (walk_view_shift errTag errBytes errSkip is_match d1 d2 (pos c)) as Hv.
    destruct (walk_view errTag errBytes errSkip is_match d2 (pos c)) as [q e|q n b|q];
      rewrite Hv.
    + inversion Hs; subst. reflexivity.
    + rewrite Hshift, Hs. reflexivity.
    + discriminate.
  - destruct o as [cf|p r|]; [| |exact I];
      (apply (exec_cont _ _ _ (Cursor (length d1 + pos c') (f (acc c'))));
       [cbn [pos]; rewrite length_app; lia| |exact IH]);
      rewrite walk_step_view in Hs |- *; cbn [pos acc];
      pose proof (walk_view_shift errTag errBytes errSkip is_match d1 d2 (pos c)) as Hv;
      destruct (walk_view errTag errBytes errSkip is_match d2 (pos c)) as [q e|q n b|q];
      rewrite Hv; try discriminate;
      [rewrite Hshift, Hs; reflexivity|inversion Hs; subst; reflexivity
      |rewrite Hshift, Hs; reflexivity|inversion Hs; subst; reflexivity].
Qed.

End WalkConcat.

Lemma count_on_match_shift (k : list Byte.byte -> count_result) (L n1 : nat) p n b a :
  count_on_match k (L + p) n b (n1 + a)%nat =
  match count_on_match k p n b a with
  | Continue c => Continue (Cursor (L + pos c) (n1 + acc c)%nat)
  | Stop q r => Stop (L + q) r
  end.
Proof.
  unfold count_on_match. destruct (k b) as [x [e|]]; cbn [pos acc].
  - rewrite Nat.add_assoc. reflexivity.
  - rewrite !Nat.add_assoc. reflexivity.
Qed.

(** Counting [d1 ++ d2] after a successful count of [d1]: the two counts
    add up, or the error of [d2] comes out. *)
Lemma count_via_app errTag errBytes is_match k (d1 d2 : list Byte.byte) (n1 : nat) :
  count_via errTag errBytes is_match k d1 = (n1, None) ->
  count_via errTag errBytes is_match k (d1 ++ d2) =
  match count_via errTag errBytes is_match k d2 with
  | (n2, None) => ((n1 + n2)%nat, None)
  | r => r
  end.
Proof.
  intros H1.
  destruct (count_via_exec errTag errBytes is_match k d1) as [o1 [Ho1 Hv1]].
  rewrite H1 in Hv1.
  destruct o1 as [cf1|p r|]; [|
    destruct (exec_stopped_step _ _ _ _ _ Ho1) as [c0 Hs];
    apply count_step_stop in Hs; subst r; destruct Hs as [_ Hs]; contradiction Hs; reflexivity
    | exfalso; exact (exec_not_oof _ _ _ _ Ho1 eq_refl)].
  inversion Hv1 as [Hn1]. subst n1.
  pose proof (exec_finished_at_end _ d1
    (fun c c' Hs => proj2 (count_step_bounds _ _ _ _ _ _ _ Hs)) _ _ Ho1 ltac:(cbn; lia)) as Hp1.
  pose proof (walk_steps_app _ _ _ _ _ _ d1 d2 _ _ (exec_finished_steps _ _ _ _ Ho1)) as Hst.
  destruct (count_via_exec errTag errBytes is_match k d2) as [o2 [Ho2 Hv2]].
  pose proof (walk_exec_shift _ _ _ _ _ _ d1 d2 (Nat.add (acc cf1))
    (fun p n b a => count_on_match_shift k (length d1) (acc cf1) p n b a) _ _ Ho2) as Hsh.
  cbn [pos acc] in Hsh. rewrite !Nat.add_0_r in Hsh.
  destruct cf1 as [q1 a1]. cbn [pos acc] in Hp1, Hst, Hsh |- *. subst q1.
  unfold count_via at 1. rewrite Hv2.
  destruct o2 as [cf|p r|].
  - rewrite (loop_exec _ (count_step_progress _ _ _ _) _ _ _ _ _ (steps_exec _ _ _ _ _ Hst Hsh)).
    reflexivity.
  - rewrite (loop_exec _ (count_step_progress _ _ _ _) _ _ _ _ _ (steps_exec _ _ _ _ _ Hst Hsh)).
    destruct (exec_stopped_step _ _ _ _ _ Ho2) as [c0 Hs].
    apply count_step_stop in Hs. destruct r as [x [e|]]; [reflexivity|].
    destruct Hs as [_ Hs]; contradiction Hs; reflexivity.
  - exfalso; exact (exec_not_oof _ _ _ _ Ho2 eq_refl).
Qed.

(** [out] of a pass over [d1 ++ d2] whose pass over [d1] gave [s1]. *)
Lemma extract_on_match_shift (s1 : slice (list Byte.byte)) (L : nat) p n b a :
  let f := fun a => match s1 with None => a | Some l => Some (l ++ slice_elems a) end in
  extract_on_match (L + p) n b (f a) =
  match extract_on_match p n b a with
  | Continue c => Continue (Cursor (L + pos c) (f (acc c)))
  | Stop q r => Stop (L + q) r
  end.
Proof.
  unfold extract_on_match, go_append. cbn [pos acc]. rewrite Nat.add_assoc.
  destruct s1 as [l|]; [|reflexivity]. cbn [slice_elems]. rewrite app_assoc. reflexivity.
Qed.

(** Extracting from [d1 ++ d2] after a successful extraction from [d1]: the
    slices are appended, or the error of [d2] comes out. *)
Lemma extract_via_app errTag errBytes (d1 d2 : list Byte.byte) (s1 : slice (list Byte.byte)) :
  extract_via errTag errBytes d1 = (s1, None) ->
  extract_via errTag errBytes (d1 ++ d2) =
  match extract_via errTag errBytes d2 with
  | (s2, None) => (match s1 with None => s2 | Some l => Some (l ++ slice_elems s2) end, None)
  | r => r
  end.
Proof.
  intros H1.
  destruct (extract_via_exec errTag errBytes d1) as [o1 [Ho1 Hv1]].
  rewrite H1 in Hv1.
  destruct o1 as [cf1|p r|]; [|
    destruct (exec_stopped_step _ _ _ _ _ Ho1) as [c0 Hs];
    apply extract_step_stop in Hs; destruct Hs as [e He]; subst r; discriminate
    | exfalso; exact (exec_not_oof _ _ _ _ Ho1 eq_refl)].
  inversion Hv1 as [Hs1]. subst s1.
  pose proof (exec_finished_at_end _ d1
    (fun c c' Hs => proj2 (extract_step_bounds _ _ _ _ _ Hs)) _ _ Ho1 ltac:(cbn; lia)) as Hp1.
  pose proof (walk_steps_app _ _ _ _ _ _ d1 d2 _ _ (exec_finished_steps _ _ _ _ Ho1)) as Hst.
  destruct (extract_via_exec errTag errBytes d2) as [o2 [Ho2 Hv2]].
  set (f := fun a => match acc cf1 with None => a | Some l => Some (l ++ slice_elems a) end).
  pose proof (walk_exec_shift _ _ _ _ _ _ d1 d2 f
    (fun p n b a => extract_on_match_shift (acc cf1) (length d1) p n b a) _ _ Ho2) as Hsh.
  assert (Hf0 : f None = acc cf1).
  { unfold f. destruct (acc cf1) as [l|]; [rewrite app_nil_r|]; reflexivity. }
  cbn [pos acc] in Hsh. rewrite Nat.add_0_r, Hf0 in Hsh.
  destruct cf1 as [q1 a1]. cbn [pos acc] in Hp1, Hst, Hsh, f |- *. subst q1.
  unfold extract_via at 1. rewrite Hv2.
  destruct o2 as [cf|p r|].
  - rewrite (loop_exec _ (extract_step_progress _ _) _ _ _ _ _ (steps_exec _ _ _ _ _ Hst Hsh)).
    reflexivity.
  - rewrite (loop_exec _ (extract_step_progress _ _) _ _ _ _ _ (steps_exec _ _ _ _ _ Hst Hsh)).
    destruct (exec_stopped_step _ _ _ _ _ Ho2) as [c0 Hs].
    apply extract_step_stop in Hs. destruct Hs as [e He]. rewrite ?He; subst; reflexivity.
  - exfalso; exact (exec_not_oof _ _ _ _ Ho2 eq_refl).
Qed.

Lemma split_by_resource_app errTag errBytes (d1 d2 : list Byte.byte) (l1 : list (list Byte.byte)) :
  split_by_resource (extract_via errTag errBytes d1) = Some l1 ->
  split_by_resource (extract_via errTag errBytes (d1 ++ d2)) =
  match split_by_resource (extract_via errTag errBytes d2) with
  | Some l2 => Some (l1 ++ l2)
  | None => None
  end.
Proof.
  unfold split_by_resource.
  destruct (extract_via errTag errBytes d1) as [s1 [e|]] eqn:E1; [discriminate|].
  intros H. inversion H as [Hl]. subst l1. rewrite map_id.
  rewrite (extract_via_app _ _ _ _ _ E1).
  destruct (extract_via errTag errBytes d2) as [s2 [e|]]; [reflexivity|].
  rewrite !map_id. destruct s1; reflexivity.
Qed.

Lemma count_via_app_fst errTag errBytes is_match k (d1 d2 : list Byte.byte) (n1 : nat) :
  count_via errTag errBytes is_match k d1 = (n1, None) ->
  (count_via errTag errBytes is_match k (d1 ++ d2) =
     match count_via errTag errBytes is_match k d2 with
     | (n2, None) => ((n1 + n2)%nat, None) | r => r end) /\
  (fst (count_via errTag errBytes is_match k (d1 ++ d2)) =
     match count_via errTag errBytes is_match k d2 with
     | (n2, None) => (n1 + n2)%nat | _ => 0%nat end).
Proof.
  intros H. rewrite (count_via_app _ _ _ _ _ _ _ H). split; [reflexivity|].
  pose proof (count_via_error errTag errBytes is_match k d2) as He.
  destruct (count_via errTag errBytes is_match k d2) as [c [e|]]; [|reflexivity].
  exact (He _ _ eq_refl).
Qed.

(** ** Concatenated requests

    Protobuf merges concatenated messages by appending their repeated
    fields.  The loops agree: once the first part has been counted without
    error, counting the concatenation adds the count of the second part,
    or returns the error of the second part. *)
Theorem count_concatenation (d1 d2 : list Byte.byte) :
  (forall n1, countMetricDataPoints d1 = (n1, None) ->
     countMetricDataPoints (d1 ++ d2) =
       match countMetricDataPoints d2 with (n2, None) => ((n1 + n2)%nat, None) | r => r end /\
     ExportMetricsServiceRequest_DataPointCount (d1 ++ d2) =
       match countMetricDataPoints d2 with (n2, None) => (n1 + n2)%nat | _ => 0%nat end) /\
  (forall n1, countLogRecords d1 = (n1, None) ->
     countLogRecords (d1 ++ d2) =
       match countLogRecords d2 with (n2, None) => ((n1 + n2)%nat, None) | r => r end /\
     ExportLogsServiceRequest_LogRecordCount (d1 ++ d2) =
       match countLogRecords d2 with (n2, None) => (n1 + n2)%nat | _ => 0%nat end) /\
  (forall n1, countSpans d1 = (n1, None) ->
     countSpans (d1 ++ d2) =
       match countSpans d2 with (n2, None) => ((n1 + n2)%nat, None) | r => r end /\
     ExportTracesServiceRequest_SpanCount (d1 ++ d2) =
       match countSpans d2 with (n2, None) => (n1 + n2)%nat | _ => 0%nat end).
Proof.
  unfold ExportMetricsServiceRequest_DataPointCount, ExportLogsServiceRequest_LogRecordCount,
    ExportTracesServiceRequest_SpanCount.
  split; [|split]; intros n1 H; exact (count_via_app_fst _ _ _ _ _ _ _ H).
Qed.

(** Splitting the concatenation of two requests, the first of which splits
    without error, gives the resources of the first followed by those of
    the second, or nil if the second does not split. *)
Theorem split_concatenation (d1 d2 : list Byte.byte) :
  (forall l1, ExportMetricsServiceRequest_SplitByResource d1 = Some l1 ->
     ExportMetricsServiceRequest_SplitByResource (d1 ++ d2) =
     match ExportMetricsServiceRequest_SplitByResource d2 with
     | Some l2 => Some (l1 ++ l2) | None => None end) /\
  (forall l1, ExportLogsServiceRequest_SplitByResource d1 = Some l1 ->
     ExportLogsServiceRequest_SplitByResource (d1 ++ d2) =
     match ExportLogsServiceRequest_SplitByResource d2 with
     | Some l2 => Some (l1 ++ l2) | None => None end) /\
  (forall l1, ExportTracesServiceRequest_SplitByResource d1 = Some l1 ->
     ExportTracesServiceRequest_SplitByResource (d1 ++ d2) =
     match ExportTracesServiceRequest_SplitByResource d2 with
     | Some l2 => Some (l1 ++ l2) | None => None end).
Proof. split; [|split]; intros l1; apply split_by_resource_app. Qed.

Lemma count_concatenation_witness :
  countMetricDataPoints (enc_msg batch_5_15 ++ enc_msg batch_5_15) = (40%nat, None) /\
  countLogRecords (enc_msg batch_leaves_3_2 ++ enc_msg batch_leaves_3_2) = (10%nat, None) /\
  countSpans (enc_msg batch_leaves_3_2 ++ [Byte.x08]) =
    (0%nat, Some "failed to skip field"%string).
Proof.
  assert (Hm : countMetricDataPoints (enc_msg batch_5_15) = (20%nat, None))
    by (vm_compute; reflexivity).
  assert (Hl : countLogRecords (enc_msg batch_leaves_3_2) = (5%nat, None))
    by (vm_compute; reflexivity).
  assert (Hs : countSpans (enc_msg batch_leaves_3_2) = (5%nat, None))
    by (vm_compute; reflexivity).
  destruct (count_concatenation (enc_msg batch_5_15) (enc_msg batch_5_15)) as [Cm _].
  destruct (count_concatenation (enc_msg batch_leaves_3_2) (enc_msg batch_leaves_3_2))
    as [_ [Cl _]].
  destruct (count_concatenation (enc_msg batch_leaves_3_2) [Byte.x08]) as [_ [_ Cs]].
  split; [|split].
  - destruct (Cm _ Hm) as [E _]. rewrite E, Hm. reflexivity.
  - destruct (Cl _ Hl) as [E _]. rewrite E, Hl. reflexivity.
  - destruct (Cs _ Hs) as [E _]. rewrite E. vm_compute. reflexivity.
Defined.

Lemma split_concatenation_witness :
  ExportMetricsServiceRequest_SplitByResource (enc_msg batch_5_15 ++ enc_msg batch_5_15) =
    Some [enc_msg resource_5; enc_msg resource_15; enc_msg resource_5; enc_msg resource_15].
Proof.
  assert (H : ExportMetricsServiceRequest_SplitByResource (enc_msg batch_5_15) =
    Some [enc_msg resource_5; enc_msg resource_15]) by (vm_compute; reflexivity).
  destruct (split_concatenation (enc_msg batch_5_15) (enc_msg batch_5_15)) as [C _].
  rewrite (C _ H), H. reflexivity.
Defined.

(** ** Counts are bounded by the size of the data *)

Lemma consume_varint_nonneg (i : nat) (v : Z) (b : list Byte.byte) (m n : Z) :
  0 <= v -> consume_varint_at i v b = (m, n) -> 0 <= n -> 0 <= m.
Proof.
  revert i v m n. induction b as [|y b IH]; intros i v m n Hv H Hn;
    cbn [consume_varint_at] in H.
  - inversion H. lia.
  - pose proof (bval_bound y).
    destruct (Nat.eqb i 9).
    + destruct (bval y <? 2); inversion H; subst; [apply Z.mod_pos_bound|]; lia.
    + destruct (bval y <? 128) eqn:Ey.
      * assert (Hm : m = v + Z.shiftl (bval y) (7 * Z.of_nat i)) by congruence.
        rewrite Hm, Z.shiftl_mul_pow2 by lia.
        pose proof (Z.pow_nonneg 2 (7 * Z.of_nat i)). nia.
      * zb. eapply IH; [|exact H|exact Hn].
        rewrite !Z.shiftl_mul_pow2 by lia.
        pose proof (Z.pow_nonneg 2 (7 * Z.of_nat i)). nia.
Qed.

(** A successful [ConsumeBytes] consumes at least one byte more than the
    bytes it returns. *)
Lemma ConsumeBytes_match (x b : list Byte.byte) (n : Z) :
  ConsumeBytes x = (b, n) -> 0 <= n -> Z.of_nat (length b) + 1 <= n.
Proof.
  unfold ConsumeBytes, ConsumeVarint.
  pose proof (consume_varint_at_len 0 0 x) as Hl.
  destruct (consume_varint_at 0 0 x) as [m n0] eqn:Ev. cbn [snd] in Hl.
  destruct (n0 <? 0) eqn:E.
  - intros H Hn. inversion H; subst. zb. lia.
  - zb. pose proof (consume_varint_nonneg 0 0 x m n0 ltac:(lia) Ev ltac:(lia)) as Hm.
    destruct (m >? Z.of_nat (length (skipn (Z.to_nat n0) x))) eqn:E2.
    + intros H Hn. inversion H; subst. unfold errCodeTruncated in Hn. lia.
    + zb. intros H _. inversion H; subst.
      rewrite length_firstn, Nat.min_l by lia. lia.
Qed.

Lemma walk_view_match errTag errBytes errSkip is_match data p0 p n b :
  walk_view errTag errBytes errSkip is_match data p0 = VMatch p n b ->
  (p0 < p)%nat /\ Z.of_nat (length b) + 1 <= n /\ (p + Z.to_nat n <= length data)%nat.
Proof.
  intros H.
  pose proof (walk_view_progress errTag errBytes errSkip is_match data p0) as Hp.
  rewrite H in Hp. destruct Hp as [H1 [H2 H3]]. split; [exact H1|split; [|exact H3]].
  revert H. unfold walk_view.
  destruct (ConsumeTag (skipn p0 data)) as [[num t] tl].
  destruct (tl <? 0); [discriminate|].
  destruct (is_match num && (t =? BytesType)).
  - destruct (ConsumeBytes _) as [b' n'] eqn:Eb. destruct (n' <? 0) eqn:E; [discriminate|].
    intros H. inversion H; subst. zb. exact (ConsumeBytes_match _ _ _ Eb E).
  - destruct (_ <? 0); discriminate.
Qed.

(** Each counted message takes at least two bytes: a counting loop whose
    action counts at most half of the bytes plus one of a message counts at
    most half of the bytes of the data. *)
Lemma count_via_half errTag errBytes is_match (k : list Byte.byte -> count_result) :
  (forall b, (2 * fst (k b) <= length b + 2)%nat) ->
  forall data, (2 * fst (count_via errTag errBytes is_match k data) <= length data)%nat.
Proof.
  intros Hk data.
  destruct (count_via_exec errTag errBytes is_match k data) as [o [Ho Hv]]. rewrite Hv.
  assert (Hinv : forall c o, exec (count_step errTag errBytes is_match k) data c o ->
            (2 * acc c <= pos c)%nat ->
            match o with Finished cf => (2 * acc cf <= pos cf)%nat | _ => True end).
  { clear Ho Hv o. intros c o H.
    induction H as [c Hle|c p r Hlt Hs|c c' o Hlt Hs Hex IH]; intros Hc; [exact Hc|exact I|].
    apply IH. unfold count_step in Hs. rewrite walk_step_view in Hs.
    destruct (walk_view _ _ _ _ _ _) as [p e|p n b|p'] eqn:Ev; [discriminate| |].
    - apply walk_view_match in Ev. unfold count_on_match in Hs.
      specialize (Hk b). destruct (k b) as [x [e|]]; [discriminate|].
      inversion Hs; subst. cbn [pos acc fst] in *. lia.
    - inversion Hs; subst. cbn [pos acc].
      pose proof (walk_view_progress errTag errBytes "failed to skip field" is_match data (pos c))
        as Hp'.
      rewrite Ev in Hp'. lia. }
  destruct o as [cf|p r|].
  - pose proof (Hinv _ _ Ho ltac:(cbn; lia)) as H. cbv beta iota in H.
    pose proof (exec_finished_at_end _ data
      (fun c c' Hs => proj2 (count_step_bounds _ _ _ _ _ _ _ Hs)) _ _ Ho ltac:(cbn; lia)).
    cbn [fst]. lia.
  - destruct (exec_stopped_step _ _ _ _ _ Ho) as [c0 Hs].
    apply count_step_stop in Hs. destruct Hs as [Hs _]. rewrite Hs. lia.
  - cbn. lia.
Qed.

Lemma count_via_half_leaf errTag errBytes is_match (data : list Byte.byte) :
  (2 * fst (count_via errTag errBytes is_match count_one data) <= length data)%nat.
Proof. apply count_via_half. intros b. cbn. lia. Qed.

Lemma count_via_half_nested errTag errBytes is_match (k : list Byte.byte -> count_result) :
  (forall b, (2 * fst (k b) <= length b)%nat) ->
  forall data, (2 * fst (count_via errTag errBytes is_match k data) <= length data)%nat.
Proof. intros Hk. apply count_via_half. intros b. specialize (Hk b). lia. Qed.

(** Every counter of the package, at every level, returns at most half the
    number of bytes it reads: a counted element occupies at least a tag
    byte and a length byte.  So do [DataPointCount], [LogRecordCount] and
    [SpanCount]. *)
Theorem counts_bounded_by_size :
  Forall (fun f => forall data, (2 * fst (f data) <= length data)%nat)
    [countDataPoints; countInMetric; countInScopeMetrics; countInResourceMetrics;
     countMetricDataPoints; countInScopeLogs; countInResourceLogs; countLogRecords;
     countInScopeSpans; countInResourceSpans; countSpans] /\
  (forall data,
     (2 * ExportMetricsServiceRequest_DataPointCount data <= length data)%nat /\
     (2 * ExportLogsServiceRequest_LogRecordCount data <= length data)%nat /\
     (2 * ExportTracesServiceRequest_SpanCount data <= length data)%nat).
Proof.
  assert (H1 : forall d, (2 * fst (countDataPoints d) <= length d)%nat)
    by apply count_via_half_leaf.
  assert (H2 : forall d, (2 * fst (countInMetric d) <= length d)%nat)
    by exact (count_via_half_nested _ _ _ _ H1).
  assert (H3 : forall d, (2 * fst (countInScopeMetrics d) <= length d)%nat)
    by exact (count_via_half_nested _ _ _ _ H2).
  assert (H4 : forall d, (2 * fst (countInResourceMetrics d) <= length d)%nat)
    by exact (count_via_half_nested _ _ _ _ H3).
  assert (H5 : forall d, (2 * fst (countMetricDataPoints d) <= length d)%nat)
    by exact (count_via_half_nested _ _ _ _ H4).
  assert (H6 : forall d, (2 * fst (countInScopeLogs d) <= length d)%nat)
    by apply count_via_half_leaf.
  assert (H7 : forall d, (2 * fst (countInResourceLogs d) <= length d)%nat)
    by exact (count_via_half_nested _ _ _ _ H6).
  assert (H8 : forall d, (2 * fst (countLogRecords d) <= length d)%nat)
    by exact (count_via_half_nested _ _ _ _ H7).
  assert (H9 : forall d, (2 * fst (countInScopeSpans d) <= length d)%nat)
    by apply count_via_half_leaf.
  assert (H10 : forall d, (2 * fst (countInResourceSpans d) <= length d)%nat)
    by exact (count_via_half_nested _ _ _ _ H9).
  assert (H11 : forall d, (2 * fst (countSpans d) <= length d)%nat)
    by exact (count_via_half_nested _ _ _ _ H10).
  split; [repeat constructor; assumption|].
  intros d. split; [|split]; [apply H5|apply H8|apply H11].
Qed.

(** ** Shards count what the batch counts *)

(** Every extracted resource is a sub-slice of the data: it is no longer. *)
Lemma extract_via_short errTag errBytes (data : list Byte.byte) :
  Forall (fun r => (length r <= length data)%nat)
    (slice_elems (fst (extract_via errTag errBytes data))).
Proof.
  destruct (extract_via_exec errTag errBytes data) as [o [Ho Hv]]. rewrite Hv.
  assert (Hinv : forall c o, exec (extract_step errTag errBytes) data c o ->
            Forall (fun r => (length r <= length data)%nat) (slice_elems (acc c)) ->
            match o with
            | Finished cf => Forall (fun r => (length r <= length data)%nat) (slice_elems (acc cf))
            | _ => True
            end).
  { clear Ho Hv o. intros c o H.
    induction H as [c Hle|c p r Hlt Hs|c c' o Hlt Hs Hex IH]; intros Hc; [exact Hc|exact I|].
    apply IH. unfold extract_step in Hs. rewrite walk_step_view in Hs.
    destruct (walk_view _ _ _ _ _ _) as [p e|p n b|p'] eqn:Ev; [discriminate| |].
    - apply walk_view_match in Ev. inversion Hs; subst. cbn [acc go_append slice_elems].
      apply Forall_app. split; [exact Hc|]. constructor; [lia|constructor].
    - inversion Hs; subst. exact Hc. }
  destruct o as [cf|p r|].
  - exact (Hinv _ _ Ho (Forall_nil _)).
  - destruct (exec_stopped_step _ _ _ _ _ Ho) as [c0 Hs].
    apply extract_step_stop in Hs. destruct Hs as [e He]. rewrite ?He; subst; cbn; constructor.
  - constructor.
Qed.

Lemma shard_sum errTag errBytes errTag' errBytes' is_match (k : list Byte.byte -> count_result)
    (data : list Byte.byte) :
  let K := count_via errTag' errBytes' is_match k in
  let wrap := fun r => AppendBytes (AppendTag [] 1 BytesType) r in
  fits_int data = true ->
  snd (count_via errTag errBytes (is_field 1) K data) = None ->
  exists l, split_by_resource (extract_via errTag errBytes data) = Some l /\
    fst (count_via errTag errBytes (is_field 1) K data) =
      list_sum (map (fun r => fst (count_via errTag errBytes (is_field 1) K (wrap r))) l) /\
    Forall (fun r => snd (count_via errTag errBytes (is_field 1) K (wrap r)) = None) l.
Proof.
  intros K wrap Hd Hc.
  destruct (count_via errTag errBytes (is_field 1) K data) as [n e] eqn:E.
  cbn [snd] in Hc. subst e.
  destruct (count_then_extract _ _ _ _ _ E) as [rs [Hx [Hn HF]]].
  pose proof (extract_via_short errTag errBytes data) as Hs. rewrite Hx in Hs. cbn [fst] in Hs.
  assert (Hw : forall r, In r (slice_elems rs) ->
            count_via errTag errBytes (is_field 1) K (wrap r) = K r).
  { intros r Hr. apply count_via_wrap_count.
    rewrite Forall_forall in Hs. specialize (Hs r Hr).
    unfold fits_int in Hd |- *. zb. lia. }
  exists (slice_elems rs). split; [|split].
  - unfold split_by_resource. rewrite Hx, map_id. reflexivity.
  - cbn [fst]. rewrite Hn. f_equal. apply map_ext_in. intros r Hr. rewrite (Hw r Hr). reflexivity.
  - rewrite Forall_forall in HF |- *. intros r Hr. rewrite (Hw r Hr). exact (HF r Hr).
Qed.

(** Sharding with [SplitByResource] loses and duplicates nothing: for a
    batch (of at most [2^63 - 1] bytes) that counts without error, the
    resources it splits into, each re-wrapped with [AsExportRequest], count
    without error and their counts add up to the count of the batch
    (metrics, logs, traces). *)
Theorem shards_count_what_the_batch_counts (d : list Byte.byte) :
  fits_int d = true ->
  (snd (countMetricDataPoints d) = None ->
   exists l, ExportMetricsServiceRequest_SplitByResource d = Some l /\
     ExportMetricsServiceRequest_DataPointCount d =
       list_sum (map (fun r => ExportMetricsServiceRequest_DataPointCount
                                 (ResourceMetrics_AsExportRequest r)) l) /\
     Forall (fun r => snd (countMetricDataPoints (ResourceMetrics_AsExportRequest r)) = None) l) /\
  (snd (countLogRecords d) = None ->
   exists l, ExportLogsServiceRequest_SplitByResource d = Some l /\
     ExportLogsServiceRequest_LogRecordCount d =
       list_sum (map (fun r => ExportLogsServiceRequest_LogRecordCount
                                 (ResourceLogs_AsExportRequest r)) l) /\
     Forall (fun r => snd (countLogRecords (ResourceLogs_AsExportRequest r)) = None) l) /\
  (snd (countSpans d) = None ->
   exists l, ExportTracesServiceRequest_SplitByResource d = Some l /\
     ExportTracesServiceRequest_SpanCount d =
       list_sum (map (fun r => ExportTracesServiceRequest_SpanCount
                                 (ResourceSpans_AsExportRequest r)) l) /\
     Forall (fun r => snd (countSpans (ResourceSpans_AsExportRequest r)) = None) l).
Proof.
  intros Hd. split; [|split]; intros Hc; exact (shard_sum _ _ _ _ _ _ _ Hd Hc).
Qed.

Lemma shards_count_what_the_batch_counts_witness :
  exists l, ExportMetricsServiceRequest_SplitByResource (enc_msg batch_5_15) = Some l /\
    20%nat = list_sum (map (fun r => ExportMetricsServiceRequest_DataPointCount
                                       (ResourceMetrics_AsExportRequest r)) l).
Proof.
  destruct (shards_count_what_the_batch_counts (enc_msg batch_5_15)
    ltac:(vm_compute; reflexivity)) as [H _].
  assert (Hc : snd (countMetricDataPoints (enc_msg batch_5_15)) = None)
    by (vm_compute; reflexivity).
  destruct (H Hc) as [l [Hl [Hn _]]]. exists l. split; [exact Hl|].
  rewrite <- Hn. vm_compute. reflexivity.
Defined.

(** ** Malformed input in every loop *)

Lemma count_table_entry errTag errBytes is_match (k : list Byte.byte -> count_result) :
  (forall data, exists o, exec (count_step errTag errBytes is_match k) data (Cursor 0 0%nat) o /\
     o <> OutOfFuel /\
     count_via errTag errBytes is_match k data =
     match o with Finished c => (acc c, None) | Stopped _ r => r | OutOfFuel => (0%nat, None) end) /\
  (forall pre bad num t tl,
     let q := length (enc_msg pre) in
     let d := enc_msg pre ++ bad in
     wf_msg pre = true -> Forall (fun b => snd (k b) = None) (matched is_match pre) ->
     bad <> [] -> ConsumeTag (skipn q d) = (num, t, tl) ->
     (tl < 0 -> count_via errTag errBytes is_match k d = (0%nat, Some errTag)) /\
     (0 <= tl -> is_match num = true -> t = BytesType ->
      snd (ConsumeBytes (skipn (q + Z.to_nat tl) d)) < 0 ->
      count_via errTag errBytes is_match k d = (0%nat, Some errBytes)) /\
     (0 <= tl -> is_match num && (t =? BytesType) = false ->
      skipField (skipn (q + Z.to_nat tl) d) t < 0 ->
      count_via errTag errBytes is_match k d = (0%nat, Some "failed to skip field"%string))) /\
  (forall P c n p rest,
     count_via errTag errBytes is_match k P = (c, None) ->
     valid_num n = true -> wf_payload p = true -> is_match n && is_ld p = false ->
     count_via errTag errBytes is_match k (P ++ enc_field n p ++ rest) =
     count_via errTag errBytes is_match k (P ++ rest)).
Proof.
  split; [|split].
  - intros data. destruct (count_via_exec errTag errBytes is_match k data) as [o [Ho Hv]].
    exists o. split; [exact Ho|split; [exact (exec_not_oof _ _ _ _ Ho)|exact Hv]].
  - intros pre bad num t tl q d Hwf Hok Hne Ht. split; [|split].
    + intros Hl. eapply count_via_fail_at; [exact Hwf|exact Hok|exact Hne|].
      exact (walk_view_tag_error _ _ _ _ _ _ _ _ _ Ht Hl).
    + intros Hl Hm -> Hb. eapply count_via_fail_at; [exact Hwf|exact Hok|exact Hne|].
      exact (walk_view_bytes_error _ _ _ _ _ _ _ _ Ht Hl Hm Hb).
    + intros Hl Hm Hs. eapply count_via_fail_at; [exact Hwf|exact Hok|exact Hne|].
      exact (walk_view_skip_error _ _ _ _ _ _ _ _ _ Ht Hl Hm Hs).
  - intros P c n p rest H Hn Hp Hm.
    assert (HX : count_via errTag errBytes is_match k (enc_field n p) = (0%nat, None)).
    { pose proof (count_via_enc errTag errBytes is_match k (MCons n p MNil)) as E.
      cbn [enc_msg wf_msg matched] in E. rewrite app_nil_r, Hm, Hn, Hp in E.
      exact (E eq_refl (Forall_nil _)). }
    rewrite (count_via_app _ _ _ _ P (enc_field n p ++ rest) c H),
      (count_via_app _ _ _ _ (enc_field n p) rest 0 HX), (count_via_app _ _ _ _ P rest c H).
    destruct (count_via errTag errBytes is_match k rest) as [n2 [e|]]; reflexivity.
Qed.

Lemma extract_table_entry errTag errBytes :
  (forall data, exists o, exec (extract_step errTag errBytes) data (Cursor 0 None) o /\
     o <> OutOfFuel /\
     extract_via errTag errBytes data =
     match o with Finished c => (acc c, None) | Stopped _ r => r | OutOfFuel => (None, None) end) /\
  (forall pre bad num t tl,
     let q := length (enc_msg pre) in
     let d := enc_msg pre ++ bad in
     wf_msg pre = true -> bad <> [] -> ConsumeTag (skipn q d) = (num, t, tl) ->
     (tl < 0 -> extract_via errTag errBytes d = (None, Some errTag)) /\
     (0 <= tl -> num = 1 -> t = BytesType ->
      snd (ConsumeBytes (skipn (q + Z.to_nat tl) d)) < 0 ->
      extract_via errTag errBytes d = (None, Some errBytes)) /\
     (0 <= tl -> is_field 1 num && (t =? BytesType) = false ->
      skipField (skipn (q + Z.to_nat tl) d) t < 0 ->
      extract_via errTag errBytes d = (None, Some "failed to skip field"%string))) /\
  (forall P s n p rest,
     extract_via errTag errBytes P = (s, None) ->
     valid_num n = true -> wf_payload p = true -> is_field 1 n && is_ld p = false ->
     extract_via errTag errBytes (P ++ enc_field n p ++ rest) =
     extract_via errTag errBytes (P ++ rest)).
Proof.
  split; [|split].
  - intros data. destruct (extract_via_exec errTag errBytes data) as [o [Ho Hv]].
    exists o. split; [exact Ho|split; [exact (exec_not_oof _ _ _ _ Ho)|exact Hv]].
  - intros pre bad num t tl q d Hwf Hne Ht. split; [|split].
    + intros Hl. eapply extract_via_fail_at; [exact Hwf|exact Hne|].
      exact (walk_view_tag_error _ _ _ _ _ _ _ _ _ Ht Hl).
    + intros Hl -> -> Hb. eapply extract_via_fail_at; [exact Hwf|exact Hne|].
      exact (walk_view_bytes_error _ _ _ _ _ _ _ _ Ht Hl eq_refl Hb).
    + intros Hl Hm Hs. eapply extract_via_fail_at; [exact Hwf|exact Hne|].
      exact (walk_view_skip_error _ _ _ _ _ _ _ _ _ Ht Hl Hm Hs).
  - intros P s n p rest H Hn Hp Hm.
    assert (HX : extract_via errTag errBytes (enc_field n p) = (None, None)).
    { pose proof (extract_via_enc errTag errBytes (MCons n p MNil)) as E.
      cbn [enc_msg wf_msg matched] in E. rewrite app_nil_r, Hm, Hn, Hp in E.
      exact (E eq_refl). }
    rewrite (extract_via_app _ _ P (enc_field n p ++ rest) s H),
      (extract_via_app _ _ (enc_field n p) rest None HX), (extract_via_app _ _ P rest s H).
    destruct (extract_via errTag errBytes rest) as [s2 [e|]]; reflexivity.
Qed.

(** Well-formed fields before the first length-delimited field 1 do not
    change what [extractResourceMessage] returns. *)
Lemma extractResourceMessage_skip_prefix (pre : msg) (rest : list Byte.byte) (messageType : string) :
  wf_msg pre = true -> matched (is_field 1) pre = [] ->
  extractResourceMessage (enc_msg pre ++ rest) messageType = extractResourceMessage rest messageType.
Proof.
  intros Hwf Hnone.
  pose proof (walk_fields (String.append "malformed protobuf tag in " messageType)
                "invalid bytes in Resource" (String.append "failed to skip field in " messageType)
                (is_field 1) bytes_fail resource_on_match (fun _ a => a) (fun _ => False)
                (fun p n b a H => False_ind _ H) pre (enc_msg pre ++ rest) 0 tt rest eq_refl Hwf
                ltac:(rewrite Hnone; constructor)) as Hst.
  rewrite Hnone in Hst. cbn [fold_left] in Hst. rewrite Nat.add_0_l in Hst.
  destruct (extractResourceMessage_exec rest messageType) as [o [Ho Hv]].
  pose proof (walk_exec_shift (String.append "malformed protobuf tag in " messageType)
                "invalid bytes in Resource" (String.append "failed to skip field in " messageType)
                (is_field 1) bytes_fail resource_on_match (enc_msg pre) rest (fun a => a)
                (fun p n b a => eq_refl) _ _ Ho) as Hsh.
  cbn [pos acc] in Hsh. rewrite Nat.add_0_r in Hsh.
  rewrite Hv. unfold extractResourceMessage.
  destruct o as [cf|p r|].
  - rewrite (loop_exec _ (resource_step_progress _) _ _ _ _ _ (steps_exec _ _ _ _ _ Hst Hsh)).
    reflexivity.
  - rewrite (loop_exec _ (resource_step_progress _) _ _ _ _ _ (steps_exec _ _ _ _ _ Hst Hsh)).
    reflexivity.
  - exfalso; exact (exec_not_oof _ _ _ _ Ho eq_refl).
Qed.

Lemma resource_table_entry (messageType : string) :
  (forall data, exists o, exec (resource_step messageType) data (Cursor 0 tt) o /\
     o <> OutOfFuel /\
     extractResourceMessage data messageType =
     match o with Finished _ => ([], None) | Stopped _ r => r | OutOfFuel => ([], None) end) /\
  (forall pre bad num t tl,
     let q := length (enc_msg pre) in
     let d := enc_msg pre ++ bad in
     wf_msg pre = true -> matched (is_field 1) pre = [] ->
     bad <> [] -> ConsumeTag (skipn q d) = (num, t, tl) ->
     (tl < 0 -> extractResourceMessage d messageType =
        ([], Some (String.append "malformed protobuf tag in " messageType))) /\
     (0 <= tl -> num = 1 -> t = BytesType ->
      snd (ConsumeBytes (skipn (q + Z.to_nat tl) d)) < 0 ->
      extractResourceMessage d messageType = ([], Some "invalid bytes in Resource"%string)) /\
     (0 <= tl -> is_field 1 num && (t =? BytesType) = false ->
      skipField (skipn (q + Z.to_nat tl) d) t < 0 ->
      extractResourceMessage d messageType =
        ([], Some (String.append "failed to skip field in " messageType)))) /\
  (forall pre n p rest,
     wf_msg pre = true -> matched (is_field 1) pre = [] ->
     valid_num n = true -> wf_payload p = true -> is_field 1 n && is_ld p = false ->
     extractResourceMessage (enc_msg pre ++ enc_field n p ++ rest) messageType =
     extractResourceMessage (enc_msg pre ++ rest) messageType).
Proof.
  split; [|split].
  - intros data. destruct (extractResourceMessage_exec data messageType) as [o [Ho Hv]].
    exists o. split; [exact Ho|split; [exact (exec_not_oof _ _ _ _ Ho)|exact Hv]].
  - intros pre bad num t tl q d Hwf Hnone Hne Ht.
    assert (Hfail : forall p e,
      walk_view (String.append "malformed protobuf tag in " messageType)
        "invalid bytes in Resource" (String.append "failed to skip field in " messageType)
        (is_field 1) d q = VFail p e -> extractResourceMessage d messageType = ([], Some e)).
    { intros p e Hv. unfold d. rewrite extractResourceMessage_skip_prefix by assumption.
      assert (Hs : skipn q d = bad) by (apply (skipn_after 0 d (enc_msg pre)); reflexivity).
      destruct bad as [|y bad']; [congruence|].
      unfold extractResourceMessage, loop.
      cbn [run pos length Nat.ltb Nat.leb].
      unfold resource_step. rewrite walk_step_view. cbn [pos].
      assert (Hv0 : walk_view (String.append "malformed protobuf tag in " messageType)
        "invalid bytes in Resource" (String.append "failed to skip field in " messageType)
        (is_field 1) (y :: bad') 0 = VFail (p - q) e).
      { clear -Hv Hs. revert Hv. unfold walk_view. rewrite Hs. cbn [skipn].
        destruct (ConsumeTag (y :: bad')) as [[num' t'] tl'].
        destruct (tl' <? 0); [intros H; inversion H; subst; f_equal; lia|].
        assert (Hk : forall j, skipn (q + j) d = skipn j (y :: bad')).
        { intros j. rewrite <- Hs, skipn_skipn. f_equal. lia. }
        rewrite !Hk, Nat.add_0_l.
        destruct (is_field 1 num' && (t' =? BytesType)).
        - destruct (ConsumeBytes _) as [b n]. destruct (n <? 0); intros H; inversion H; subst.
          f_equal. lia.
        - destruct (_ <? 0); intros H; inversion H; subst. f_equal. lia. }
      rewrite Hv0. reflexivity. }
    split; [|split].
    + intros Hl. apply (Hfail q). exact (walk_view_tag_error _ _ _ _ _ _ _ _ _ Ht Hl).
    + intros Hl -> -> Hb. apply (Hfail (q + Z.to_nat tl)%nat).
      exact (walk_view_bytes_error _ _ _ _ _ _ _ _ Ht Hl eq_refl Hb).
    + intros Hl Hm Hs. apply (Hfail (q + Z.to_nat tl)%nat).
      exact (walk_view_skip_error _ _ _ _ _ _ _ _ _ Ht Hl Hm Hs).
  - intros pre n p rest Hwf Hnone Hn Hp Hm.
    assert (E : enc_msg pre ++ enc_field n p ++ rest = enc_msg (msg_app pre (MCons n p MNil)) ++ rest).
    { rewrite enc_msg_app. cbn [enc_msg]. rewrite app_nil_r, app_assoc. reflexivity. }
    rewrite E, !extractResourceMessage_skip_prefix; [reflexivity|assumption|assumption| |].
    + rewrite wf_msg_app, Hwf. cbn [wf_msg]. rewrite Hn, Hp. reflexivity.
    + rewrite matched_app, Hnone. cbn [matched]. rewrite Hm. reflexivity.
Qed.

(** C7: every counting and extraction loop returns (its walk never runs out
    of fuel); when a level's walk, after well-formed fields, comes to a
    malformed tag, to a matching length-delimited field whose length exceeds
    the remaining bytes, or to a field it cannot skip (a truncated value, or
    a wire type other than varint, fixed64, length-delimited and fixed32),
    the call returns an error with count 0 (the nil slice, the empty bytes):
    for a malformed tag the error naming the message kind walked, for a
    truncated matching field the one naming the sub-message kind.  This
    holds for the shared loops and, by name and error text, for each of the
    eleven counting functions, the three extraction functions and the three
    [extractResourceFrom*] functions (through [extractResourceMessage]).
    The bytes inside a skipped field are not inspected: inserting any
    skipped field, whatever its contents, after a prefix that walks without
    error does not change the result.  A ResourceMetrics buffer whose tag
    claims 16 bytes with 2 remaining gives an error. *)
Theorem malformed_input_is_an_error :
  (forall errTag errBytes is_match k data,
     exists o, exec (count_step errTag errBytes is_match k) data (Cursor 0 0%nat) o /\
       o <> OutOfFuel /\
       count_via errTag errBytes is_match k data =
       match o with Finished c => (acc c, None) | Stopped _ r => r | OutOfFuel => (0%nat, None) end) /\
  (forall errTag errBytes data,
     exists o, exec (extract_step errTag errBytes) data (Cursor 0 None) o /\
       o <> OutOfFuel /\
       extract_via errTag errBytes data =
       match o with Finished c => (acc c, None) | Stopped _ r => r | OutOfFuel => (None, None) end) /\
  (forall errTag errBytes is_match k pre bad num t tl,
     let q := length (enc_msg pre) in
     let d := enc_msg pre ++ bad in
     wf_msg pre = true -> Forall (fun b => snd (k b) = None) (matched is_match pre) ->
     bad <> [] -> ConsumeTag (skipn q d) = (num, t, tl) ->
     (tl < 0 -> count_via errTag errBytes is_match k d = (0%nat, Some errTag)) /\
     (0 <= tl -> is_match num = true -> t = BytesType ->
      snd (ConsumeBytes (skipn (q + Z.to_nat tl) d)) < 0 ->
      count_via errTag errBytes is_match k d = (0%nat, Some errBytes)) /\
     (0 <= tl -> is_match num && (t =? BytesType) = false ->
      skipField (skipn (q + Z.to_nat tl) d) t < 0 ->
      exists e, count_via errTag errBytes is_match k d = (0%nat, Some e))) /\
  (forall errTag errBytes pre bad num t tl,
     let q := length (enc_msg pre) in
     let d := enc_msg pre ++ bad in
     wf_msg pre = true -> bad <> [] -> ConsumeTag (skipn q d) = (num, t, tl) ->
     (tl < 0 -> extract_via errTag errBytes d = (None, Some errTag)) /\
     (0 <= tl -> num = 1 -> t = BytesType ->
      snd (ConsumeBytes (skipn (q + Z.to_nat tl) d)) < 0 ->
      extract_via errTag errBytes d = (None, Some errBytes)) /\
     (0 <= tl -> is_field 1 num && (t =? BytesType) = false ->
      skipField (skipn (q + Z.to_nat tl) d) t < 0 ->
      exists e, extract_via errTag errBytes d = (None, Some e))) /\
  (forall b t, t <> VarintType -> t <> Fixed64Type -> t <> BytesType -> t <> Fixed32Type ->
     skipField b t < 0) /\
  countInResourceMetrics (bytes_of [18; 16; 1; 2]) =
    (0%nat, Some "invalid bytes in ScopeMetrics"%string) /\
  snd (countInResourceMetrics (bytes_of [10; 16; 1; 2])) <> None /\
  Forall (fun '(f, errTag, errBytes, is_match, k) =>
    (forall data, exists o, exec (count_step errTag errBytes is_match k) data (Cursor 0 0%nat) o /\
       o <> OutOfFuel /\
       f data = match o with
                | Finished c => (acc c, None) | Stopped _ r => r | OutOfFuel => (0%nat, None)
                end) /\
    (forall pre bad num t tl,
       let q := length (enc_msg pre) in
       let d := enc_msg pre ++ bad in
       wf_msg pre = true -> Forall (fun b => snd (k b) = None) (matched is_match pre) ->
       bad <> [] -> ConsumeTag (skipn q d) = (num, t, tl) ->
       (tl < 0 -> f d = (0%nat, Some errTag)) /\
       (0 <= tl -> is_match num = true -> t = BytesType ->
        snd (ConsumeBytes (skipn (q + Z.to_nat tl) d)) < 0 -> f d = (0%nat, Some errBytes)) /\
       (0 <= tl -> is_match num && (t =? BytesType) = false ->
        skipField (skipn (q + Z.to_nat tl) d) t < 0 ->
        f d = (0%nat, Some "failed to skip field"%string))) /\
    (forall P c n p rest, f P = (c, None) ->
       valid_num n = true -> wf_payload p = true -> is_match n && is_ld p = false ->
       f (P ++ enc_field n p ++ rest) = f (P ++ rest)))
    [(countDataPoints, "malformed protobuf tag in metric data points"%string,
        "invalid bytes in DataPoints"%string, is_field 1, count_one);
     (countInMetric, "malformed protobuf tag in Metric"%string,
        "invalid bytes in metric data"%string, is_metric_data, countDataPoints);
     (countInScopeMetrics, "malformed protobuf tag in ScopeMetrics"%string,
        "invalid bytes in Metrics"%string, is_field 2, countInMetric);
     (countInResourceMetrics, "malformed protobuf tag in ResourceMetrics"%string,
        "invalid bytes in ScopeMetrics"%string, is_field 2, countInScopeMetrics);
     (countMetricDataPoints, "malformed protobuf tag in ExportMetricsServiceRequest"%string,
        "invalid bytes in ResourceMetrics"%string, is_field 1, countInResourceMetrics);
     (countInScopeLogs, "malformed protobuf tag in ScopeLogs"%string,
        "invalid bytes in LogRecords"%string, is_field 2, count_one);
     (countInResourceLogs, "malformed protobuf tag in ResourceLogs"%string,
        "invalid bytes in ScopeLogs"%string, is_field 2, countInScopeLogs);
     (countLogRecords, "malformed protobuf tag in ExportLogsServiceRequest"%string,
        "invalid bytes in ResourceLogs"%string, is_field 1, countInResourceLogs);
     (countInScopeSpans, "malformed protobuf tag in ScopeSpans"%string,
        "invalid bytes in Spans"%string, is_field 2, count_one);
     (countInResourceSpans, "malformed protobuf tag in ResourceSpans"%string,
        "invalid bytes in ScopeSpans"%string, is_field 2, countInScopeSpans);
     (countSpans, "malformed protobuf tag in ExportTracesServiceRequest"%string,
        "invalid bytes in ResourceSpans"%string, is_field 1, countInResourceSpans)] /\
  Forall (fun '(f, errTag, errBytes) =>
    (forall data, exists o, exec (extract_step errTag errBytes) data (Cursor 0 None) o /\
       o <> OutOfFuel /\
       f data = match o with
                | Finished c => (acc c, None) | Stopped _ r => r | OutOfFuel => (None, None)
                end) /\
    (forall pre bad num t tl,
       let q := length (enc_msg pre) in
       let d := enc_msg pre ++ bad in
       wf_msg pre = true -> bad <> [] -> ConsumeTag (skipn q d) = (num, t, tl) ->
       (tl < 0 -> f d = (None, Some errTag)) /\
       (0 <= tl -> num = 1 -> t = BytesType ->
        snd (ConsumeBytes (skipn (q + Z.to_nat tl) d)) < 0 -> f d = (None, Some errBytes)) /\
       (0 <= tl -> is_field 1 num && (t =? BytesType) = false ->
        skipField (skipn (q + Z.to_nat tl) d) t < 0 ->
        f d = (None, Some "failed to skip field"%string))) /\
    (forall P s n p rest, f P = (s, None) ->
       valid_num n = true -> wf_payload p = true -> is_field 1 n && is_ld p = false ->
       f (P ++ enc_field n p ++ rest) = f (P ++ rest)))
    [(extractResourceMetrics, "malformed protobuf tag in ExportMetricsServiceRequest"%string,
        "invalid bytes in ResourceMetrics"%string);
     (extractResourceLogs, "malformed protobuf tag in ExportLogsServiceRequest"%string,
        "invalid bytes in ResourceLogs"%string);
     (extractResourceSpans, "malformed protobuf tag in ExportTracesServiceRequest"%string,
        "invalid bytes in ResourceSpans"%string)] /\
  Forall (fun '(f, messageType) =>
    (forall data, exists o, exec (resource_step messageType) data (Cursor 0 tt) o /\
       o <> OutOfFuel /\
       f data = match o with
                | Finished _ => ([], None) | Stopped _ r => r | OutOfFuel => ([], None)
                end) /\
    (forall pre bad num t tl,
       let q := length (enc_msg pre) in
       let d := enc_msg pre ++ bad in
       wf_msg pre = true -> matched (is_field 1) pre = [] ->
       bad <> [] -> ConsumeTag (skipn q d) = (num, t, tl) ->
       (tl < 0 -> f d = ([], Some (String.append "malformed protobuf tag in " messageType))) /\
       (0 <= tl -> num = 1 -> t = BytesType ->
        snd (ConsumeBytes (skipn (q + Z.to_nat tl) d)) < 0 ->
        f d = ([], Some "invalid bytes in Resource"%string)) /\
       (0 <= tl -> is_field 1 num && (t =? BytesType) = false ->
        skipField (skipn (q + Z.to_nat tl) d) t < 0 ->
        f d = ([], Some (String.append "failed to skip field in " messageType)))) /\
    (forall pre n p rest,
       wf_msg pre = true -> matched (is_field 1) pre = [] ->
       valid_num n = true -> wf_payload p = true -> is_field 1 n && is_ld p = false ->
       f (enc_msg pre ++ enc_field n p ++ rest) = f (enc_msg pre ++ rest)))
    [(extractResourceFromResourceMetrics, "ResourceMetrics"%string);
     (extractResourceFromResourceLogs, "ResourceLogs"%string);
     (extractResourceFromResourceSpans, "ResourceSpans"%string)].
Proof.
  split.
  { intros. destruct (count_via_exec errTag errBytes is_match k data) as [o [Ho Hv]].
    exists o. split; [exact Ho|split; [exact (exec_not_oof _ _ _ _ Ho)|exact Hv]]. }
  split.
  { intros. destruct (extract_via_exec errTag errBytes data) as [o [Ho Hv]].
    exists o. split; [exact Ho|split; [exact (exec_not_oof _ _ _ _ Ho)|exact Hv]]. }
  split.
  { intros errTag errBytes is_match k pre bad num t tl q d Hwf Hok Hne Ht.
    split; [|split].
    - intros Hl. eapply count_via_fail_at; [exact Hwf|exact Hok|exact Hne|].
      exact (walk_view_tag_error _ _ _ _ _ _ _ _ _ Ht Hl).
    - intros Hl Hm -> Hb. eapply count_via_fail_at; [exact Hwf|exact Hok|exact Hne|].
      exact (walk_view_bytes_error _ _ _ _ _ _ _ _ Ht Hl Hm Hb).
    - intros Hl Hm Hs. eexists. eapply count_via_fail_at; [exact Hwf|exact Hok|exact Hne|].
      exact (walk_view_skip_error _ _ _ _ _ _ _ _ _ Ht Hl Hm Hs). }
  split.
  { intros errTag errBytes pre bad num t tl q d Hwf Hne Ht.
    split; [|split].
    - intros Hl. eapply extract_via_fail_at; [exact Hwf|exact Hne|].
      exact (walk_view_tag_error _ _ _ _ _ _ _ _ _ Ht Hl).
    - intros Hl -> -> Hb. eapply extract_via_fail_at; [exact Hwf|exact Hne|].
      exact (walk_view_bytes_error _ _ _ _ _ _ _ _ Ht Hl eq_refl Hb).
    - intros Hl Hm Hs. eexists. eapply extract_via_fail_at; [exact Hwf|exact Hne|].
      exact (walk_view_skip_error _ _ _ _ _ _ _ _ _ Ht Hl Hm Hs). }
  split.
  { intros b t H0 H1 H2 H5. rewrite skipField_other_type by assumption. lia. }
  split; [vm_compute; reflexivity|].
  split; [vm_compute; discriminate|].
  split; [repeat (apply Forall_cons; [apply count_table_entry|]); apply Forall_nil|].
  split; [repeat (apply Forall_cons; [apply extract_table_entry|]); apply Forall_nil|].
  repeat (apply Forall_cons; [apply resource_table_entry|]); apply Forall_nil.
Qed.

Lemma malformed_input_is_an_error_witness :
  countMetricDataPoints (enc_msg MNil ++ bytes_of [128]) =
    (0%nat, Some "malformed protobuf tag in ExportMetricsServiceRequest"%string) /\
  countInResourceMetrics (enc_msg MNil ++ bytes_of [11]) =
    (0%nat, Some "failed to skip field"%string) /\
  countInResourceMetrics ([] ++ enc_field 1 (PBytes (bytes_of [128])) ++ []) = (0%nat, None) /\
  extractResourceFromResourceMetrics (enc_msg MNil ++ bytes_of [128]) =
    ([], Some "malformed protobuf tag in ResourceMetrics"%string).
Proof.
  destruct malformed_input_is_an_error as [_ [_ [H [_ [_ [_ [_ [CT [_ RT]]]]]]]]].
  pose proof (proj1 (Forall_forall _ _) CT
    (countInResourceMetrics, "malformed protobuf tag in ResourceMetrics"%string,
       "invalid bytes in ScopeMetrics"%string, is_field 2, countInScopeMetrics)
    ltac:(right; right; right; left; reflexivity)) as C4.
  cbv beta iota in C4. destruct C4 as [_ [Ce Cs]].
  pose proof (proj1 (Forall_forall _ _) RT
    (extractResourceFromResourceMetrics, "ResourceMetrics"%string)
    ltac:(left; reflexivity)) as R1.
  cbv beta iota in R1. destruct R1 as [_ [Re _]].
  split; [|split; [|split]].
  - refine (proj1 (H _ _ _ _ MNil (bytes_of [128]) 0 0 (-1) eq_refl _ ltac:(discriminate)
                     ltac:(vm_compute; reflexivity)) _); [constructor|lia].
  - refine (proj2 (proj2 (Ce MNil (bytes_of [11]) 1 3 1 eq_refl (Forall_nil _)
      ltac:(discriminate) ltac:(vm_compute; reflexivity))) _ _ _);
      [lia|vm_compute; reflexivity|vm_compute; reflexivity].
  - rewrite (Cs [] 0%nat 1 (PBytes (bytes_of [128])) [] ltac:(vm_compute; reflexivity)
      eq_refl eq_refl eq_refl).
    vm_compute. reflexivity.
  - refine (proj1 (Re MNil (bytes_of [128]) 0 0 (-1) eq_refl eq_refl ltac:(discriminate)
      ltac:(vm_compute; reflexivity)) _). lia.
Defined.

(** C7 is false as stated: a malformed tag inside the bytes of a field that
    is skipped (here the Resource of a ResourceMetrics) is never decoded,
    and the call succeeds. *)
Lemma malformed_input_is_an_error_counterexample :
  (let '(_, _, tagLen) := ConsumeTag (bytes_of [128]) in tagLen < 0) /\
  countInResourceMetrics (bytes_of [10; 1; 128]) = (0%nat, None).
Proof. split; vm_compute; reflexivity. Qed.
